(** * Sample-based quantum diagonalization with orbital optimization

    A shallow embedding of the how-to
    [docs/how_tos/use_oo_to_optimize_hamiltonian_basis.ipynb] of
    qiskit-addon-sqd: the self-consistent configuration-recovery loop of
    its cell 8, the best-batch selection of cell 10 and the set-up of the
    orbital optimization of cell 12.

    The notebook is the code that is modelled line by line.  The functions
    it imports from the [qiskit_addon_sqd] package are not part of the
    sources at hand; each of them is either taken as a parameter (the
    external eigensolver, numpy's generator) or modelled from the
    specification, in a definition whose comment says so.

    Floating-point numbers are modelled by exact rationals ([Q]), numpy
    arrays of booleans by lists of lists of [bool], Python exceptions by
    an exception monad.  The bitstring matrices and probability vectors
    that the loop passes around live in a store, so that two names of one
    array are two names of one object. *)

From Stdlib Require Import QArith Qround Qabs Lqa.
From stdpp Require Import base option list numbers sorting.

Local Open Scope nat_scope.

(** ** Python exceptions and the exception monad *)

Inductive exn : Type :=
  | EmptySubspaceError
  | EigensolveNonConvergence
  | IndexError
  | NameError
  | TypeError
  | ValueError.

Inductive result (A : Type) : Type :=
  | Ok (a : A)
  | Raise (e : exn).
Arguments Ok {A} a.
Arguments Raise {A} e.

#[global] Instance result_ret : MRet result := @Ok.
#[global] Instance result_bind : MBind result := λ A B f m,
  match m with
  | Ok a => f a
  | Raise e => Raise e
  end.

(** A name that is read before it was ever bound raises [NameError]. *)
Definition bound {A} (v : option A) : result A :=
  match v with
  | Some a => Ok a
  | None => Raise NameError
  end.

(** [xs[j]] on a Python list or numpy array, for a non-negative [j]. *)
Definition getitem {A} (xs : list A) (j : nat) : result A :=
  match xs !! j with
  | Some a => Ok a
  | None => Raise IndexError
  end.

(** [xs[j] = x] on a numpy array, for a non-negative [j]: outside the
    array the assignment raises [IndexError]. *)
Definition setitem {A} (xs : list A) (j : nat) (x : A) : result (list A) :=
  if decide (j < length xs) then Ok (<[j := x]> xs) else Raise IndexError.

(** ** Bitstrings *)

(** A row of the boolean matrix: [2 * num_orbitals] bits.  The notebook
    passes [hamming_right=num_elec_a] and [hamming_left=num_elec_b], so
    the right half holds the spin-up (alpha) occupations and the left half
    the spin-down (beta) ones. *)
Definition Bitstring : Type := list bool.
Definition BitstringMatrix : Type := list Bitstring.

Definition left_half (b : Bitstring) : list bool := take (length b / 2) b.
Definition right_half (b : Bitstring) : list bool := drop (length b / 2) b.

Definition spin_up_half : Bitstring → list bool := right_half.
Definition spin_dn_half : Bitstring → list bool := left_half.

Definition popcount (bits : list bool) : nat := length (filter (λ x, x = true) bits).

(** ** Hamming postselection (spec 4.2) *)

Definition hamming_ok (hamming_right hamming_left : nat) (b : Bitstring) : bool :=
  bool_decide (popcount (right_half b) = hamming_right)
  && bool_decide (popcount (left_half b) = hamming_left).

(** Modelled from the spec: [qiskit_addon_sqd.subsampling] is missing;
    4.2 keeps the rows whose right half has population exactly
    [hamming_right] and whose left half exactly [hamming_left], together
    with their probabilities, left as relative weights. *)
Definition postselect (bitstring_matrix : BitstringMatrix) (probabilities : list Q)
    (hamming_right hamming_left : nat) : BitstringMatrix * list Q :=
  let kept := filter (λ rp, hamming_ok hamming_right hamming_left rp.1 = true)
                     (zip bitstring_matrix probabilities) in
  (kept.*1, kept.*2).

(** ** The random source and batch sampling (spec 4.3) *)

(** numpy's [Generator]: an abstract state and [rng.random()], one draw
    in the unit interval that advances the state. *)
Class Generator (G : Type) : Type := random : G → Q * G.

Section Generator.

Context `{GenG : Generator G}.

(** [rng.random(n)]: [n] consecutive draws. *)
Fixpoint random_sample (n : nat) (g : G) : list Q * G :=
  match n with
  | 0 => ([], g)
  | S n' =>
      let '(u, g1) := random g in
      let '(us, g2) := random_sample n' g1 in
      (u :: us, g2)
  end.

(** Modelled from the spec: one uniform draw of a row of [pool], with
    replacement (4.3); the row index is the integer part of
    [u * len(pool)]. *)
Definition draw_row (pool : BitstringMatrix) (g : G) : result (Bitstring * G) :=
  let '(u, g') := random g in
  row ← getitem pool (Z.to_nat (Qfloor (u * inject_Z (Z.of_nat (length pool)))));
  mret (row, g').

Fixpoint draw_batch (pool : BitstringMatrix) (samples_per_batch : nat) (g : G)
    : result (BitstringMatrix * G) :=
  match samples_per_batch with
  | 0 => mret ([], g)
  | S n =>
      '(row, g1) ← draw_row pool g;
      '(rows, g2) ← draw_batch pool n g1;
      mret (row :: rows, g2)
  end.

(** Modelled from the spec: [num_batches] independent draws of
    [samples_per_batch] rows each from the postselected matrix, all from
    the one generator that is handed in (4.3). *)
Fixpoint subsample (pool : BitstringMatrix) (samples_per_batch num_batches : nat) (g : G)
    : result (list BitstringMatrix * G) :=
  match num_batches with
  | 0 => mret ([], g)
  | S n =>
      '(batch, g1) ← draw_batch pool samples_per_batch g;
      '(batches, g2) ← subsample pool samples_per_batch n g1;
      mret (batch :: batches, g2)
  end.

(** Modelled from the spec: [postselect_and_subsample] of the missing
    [qiskit_addon_sqd.subsampling] is 4.2 followed by 4.3; when no row
    survives postselection the call signals [EmptySubspaceError]
    (4.2, section 7). *)
Definition postselect_and_subsample (bitstring_matrix : BitstringMatrix)
    (probabilities : list Q) (hamming_right hamming_left : nat)
    (samples_per_batch num_batches : nat) (g : G) : result (list BitstringMatrix * G) :=
  let '(pool, _) := postselect bitstring_matrix probabilities hamming_right hamming_left in
  match pool with
  | [] => Raise EmptySubspaceError
  | _ :: _ => subsample pool samples_per_batch num_batches g
  end.

(** The draws of numpy's generator lie in the half-open unit interval. *)
Definition unit_draws : Prop := ∀ g : G, (0 <= (random g).1)%Q ∧ ((random g).1 < 1)%Q.

End Generator.

(** ** Configuration recovery (spec 4.1) *)

Section Recovery.

Context `{GenG : Generator G}.

Definition bit_value (b : bool) : Q := if b then 1%Q else 0%Q.

(** How far the orbital's estimated occupancy is from its sampled value. *)
Definition flip_weight (b : bool) (occ : Q) : Q := Qabs (bit_value b - occ).

(** Modelled from the spec: the bits of one spin sector are resampled in
    turn.  A bit is inconsistent with the target Hamming weight when it
    has the value [inconsistent] that the sector holds too often; it is
    flipped when the draw falls below its [flip_weight], and at most
    [budget] bits are flipped, so that the population moves toward the
    target and never past it (4.1). *)
Fixpoint resample_sector (inconsistent : bool) (budget : nat) (bits : list bool)
    (occ : list Q) (g : G) : list bool * G :=
  match bits with
  | [] => ([], g)
  | b :: bits' =>
      if bool_decide (b = inconsistent) && bool_decide (0 < budget) then
        let '(u, g1) := random g in
        if Qlt_le_dec u (flip_weight b (hd 0%Q occ)) then
          let '(r, g2) := resample_sector inconsistent (budget - 1) bits' (tl occ) g1 in
          (negb b :: r, g2)
        else
          let '(r, g2) := resample_sector inconsistent budget bits' (tl occ) g1 in
          (b :: r, g2)
      else
        let '(r, g1) := resample_sector inconsistent budget bits' (tl occ) g in
        (b :: r, g1)
  end.

Definition recover_sector (target : nat) (bits : list bool) (occ : list Q) (g : G)
    : list bool * G :=
  let pop := popcount bits in
  if bool_decide (target < pop)
  then resample_sector true (pop - target) bits occ g
  else resample_sector false (target - pop) bits occ g.

Definition recover_row (avg_occupancy : list Q) (num_elec_a num_elec_b : nat)
    (b : Bitstring) (g : G) : Bitstring * G :=
  let '(l, g1) := recover_sector num_elec_b (left_half b) avg_occupancy g in
  let '(r, g2) := recover_sector num_elec_a (right_half b) avg_occupancy g1 in
  (l ++ r, g2).

Fixpoint recover_rows (avg_occupancy : list Q) (num_elec_a num_elec_b : nat)
    (rows : BitstringMatrix) (g : G) : BitstringMatrix * G :=
  match rows with
  | [] => ([], g)
  | b :: rows' =>
      let '(b', g1) := recover_row avg_occupancy num_elec_a num_elec_b b g in
      let '(rest, g2) := recover_rows avg_occupancy num_elec_a num_elec_b rows' g1 in
      (b' :: rest, g2)
  end.

(** Modelled from the spec: [recover_configurations] of the missing
    [qiskit_addon_sqd.configuration_recovery] returns a corrected matrix
    with the same number of rows and the aligned probability vector, as
    new arrays; it keeps no state but the generator it is handed (4.1). *)
Definition recover_configurations (bitstring_matrix : BitstringMatrix)
    (probabilities : list Q) (avg_occupancy : list Q) (num_elec_a num_elec_b : nat)
    (g : G) : (BitstringMatrix * list Q) * G :=
  let '(rows, g') := recover_rows avg_occupancy num_elec_a num_elec_b bitstring_matrix g in
  ((rows, probabilities), g').

End Recovery.

(** ** numpy arrays held by reference *)

(** The bitstring matrices and probability vectors of the notebook are
    numpy arrays: names are bound to objects, and [bs_mat_tmp =
    bitstring_matrix_full] makes two names of one object.  The store maps
    object identities to array contents. *)
Inductive ndarray : Type :=
  | BoolMatrix (m : BitstringMatrix)
  | FloatVector (v : list Q).

Abbreviation Store := (list ndarray) (only parsing).
Abbreviation ref := nat (only parsing).

Definition alloc (h : Store) (a : ndarray) : ref * Store := (length h, h ++ [a]).

Definition as_matrix (h : Store) (r : ref) : result BitstringMatrix :=
  match h !! r with
  | Some (BoolMatrix m) => Ok m
  | Some (FloatVector _) => Raise TypeError
  | None => Raise NameError
  end.

Definition as_vector (h : Store) (r : ref) : result (list Q) :=
  match h !! r with
  | Some (FloatVector v) => Ok v
  | Some (BoolMatrix _) => Raise TypeError
  | None => Raise NameError
  end.

(** ** numpy helpers used by the notebook *)

Definition sum_Q (xs : list Q) : Q := foldr Qplus 0%Q xs.

Definition column (k : nat) (rows : list (list Q)) : list Q :=
  (λ r, nth k r 0%Q) <$> rows.

(** [tuple(np.mean(rows, axis=0))]: the mean of each column.  On an empty
    list [np.mean] is a scalar [nan] and [tuple] raises [TypeError]; rows
    of different lengths do not form an array. *)
Definition np_mean_axis0 (rows : list (list Q)) : result (list Q) :=
  match rows with
  | [] => Raise TypeError
  | r :: _ =>
      if forallb (λ r', bool_decide (length r' = length r)) rows
      then Ok ((λ k, sum_Q (column k rows) / inject_Z (Z.of_nat (length rows)))%Q
                 <$> seq 0 (length r))
      else Raise ValueError
  end.

(** [np.argmin]: the index of the first occurrence of the minimum. *)
Fixpoint argmin_from (best_i : nat) (best : Q) (i : nat) (xs : list Q) : nat :=
  match xs with
  | [] => best_i
  | x :: xs' =>
      if Qlt_le_dec x best
      then argmin_from i x (S i) xs'
      else argmin_from best_i best (S i) xs'
  end.

Definition np_argmin (xs : list Q) : result nat :=
  match xs with
  | [] => Raise ValueError
  | x :: xs' => Ok (argmin_from 0 x 1 xs')
  end.

(** [v] at index [j] is a first minimum of [xs]. *)
Definition first_min (xs : list Q) (j : nat) (v : Q) : Prop :=
  xs !! j = Some v
  ∧ (∀ k w, xs !! k = Some w → (v <= w)%Q)
  ∧ (∀ k w, k < j → xs !! k = Some w → (v < w)%Q).

(** [a[-1]] on a two-dimensional array: its last row. *)
Definition last_row (a : list (list Q)) : result (list Q) :=
  match last a with
  | Some r => Ok r
  | None => Raise IndexError
  end.

(** Left-to-right iteration in the exception monad: a Python [for]. *)
Fixpoint for_each {A S : Type} (body : S → A → result S) (xs : list A) (s : S) : result S :=
  match xs with
  | [] => Ok s
  | x :: xs' => s' ← body s x; for_each body xs' s'
  end.

(** ** The self-consistent configuration-recovery loop (notebook cell 8) *)

(** What [solve_fermion] returns: energy, coefficients, per-orbital
    occupancies and spin expectation. *)
Record SolveOut : Type := {
  energy_sci : Q;
  coeffs_sci : list Q;
  avg_occs : list Q;
  spin : Q;
}.

(** The accumulators of the loop over the batches of one round. *)
Record BatchAcc : Type := {
  int_e : list Q;
  int_s : list Q;
  int_occs : list (list Q);
  cs : list (list Q);
}.

(** The names bound by cell 8, together with the array store and the one
    generator object [rng] that every call receives as [rand_seed]. *)
Record Globals {G : Type} : Type := {
  heap : Store;
  rng : G;
  e_hist : list (list Q);
  s_hist : list (list Q);
  occupancy_hist : list (list Q);
  avg_occupancy : option (list Q);
  bs_mat_tmp : option ref;
  probs_arr_tmp : option ref;
  batches : option (list BitstringMatrix);
  solved : option BatchAcc;
}.
Arguments Globals G : clear implicits.

(** What the notebook has in hand when cell 8 starts.  The integrals are
    opaque tensors; the eigensolver is the external collaborator of spec
    4.5, which fails explicitly when it does not converge within
    [max_cycle]; the rest are the settings of cells 2 and 8. *)
Class Setup (Tensor : Type) : Type := {
  hcore_rot : Tensor;
  eri_rot : Tensor;
  solve_fermion : BitstringMatrix → Tensor → Tensor → bool → Q → nat → result SolveOut;
  open_shell : bool;
  spin_sq : Q;
  nuclear_repulsion_energy : Q;
  num_elec_a : nat;
  num_elec_b : nat;
  iterations : nat;
  n_batches : nat;
  samples_per_batch : nat;
  max_davidson_cycles : nat;
}.

Section Notebook.

Context `{GenG : Generator G} `{NB : Setup Tensor}.

(** [bitstring_matrix_full, probs_arr_full = counts_to_arrays(counts_dict)]:
    the two raw arrays are the first two objects of the store. *)
Definition bitstring_matrix_full : ref := 0.
Definition probs_arr_full : ref := 1.

Definition initial_store (raw_bitstrings : BitstringMatrix) (raw_probs : list Q) : Store :=
  [BoolMatrix raw_bitstrings; FloatVector raw_probs].

Definition np_zeros (n : nat) : list Q := replicate n 0%Q.
Definition np_zeros2 (rows cols : nat) : list (list Q) := replicate rows (np_zeros cols).

(** The state when the [for] loop is entered. *)
Definition initial_globals (h : Store) (g : G) : Globals G :=
  {| heap := h; rng := g;
     e_hist := np_zeros2 iterations n_batches;
     s_hist := np_zeros2 iterations n_batches;
     occupancy_hist := [];
     avg_occupancy := None;
     bs_mat_tmp := None; probs_arr_tmp := None;
     batches := None; solved := None |}.

(** The [if avg_occupancy is None: ... else: ...] of the loop body:
    which arrays go on to postselection.  The call of
    [recover_configurations] reads its two array arguments and returns
    newly allocated arrays. *)
Definition recovering (st : Globals G) : result (ref * ref * Store * G) :=
  match avg_occupancy st with
  | None => mret (bitstring_matrix_full, probs_arr_full, heap st, rng st)
  | Some occ =>
      m ← as_matrix (heap st) bitstring_matrix_full;
      p ← as_vector (heap st) probs_arr_full;
      let '((m', p'), g') :=
        recover_configurations m p occ num_elec_a num_elec_b (rng st) in
      let '(r1, h1) := alloc (heap st) (BoolMatrix m') in
      let '(r2, h2) := alloc h1 (FloatVector p') in
      mret (r1, r2, h2, g')
  end.

(** The call [postselect_and_subsample(bs_mat_tmp, probs_arr_tmp, ...)]. *)
Definition batching (h : Store) (bs pr : ref) (g : G) : result (list BitstringMatrix * G) :=
  m ← as_matrix h bs;
  p ← as_vector h pr;
  postselect_and_subsample m p num_elec_a num_elec_b samples_per_batch n_batches g.

(** The call [solve_fermion(batch, hcore_rot, eri_rot, open_shell=...,
    spin_sq=..., max_cycle=max_davidson_cycles)]. *)
Definition solve (batch : BitstringMatrix) : result SolveOut :=
  solve_fermion batch hcore_rot eri_rot open_shell spin_sq max_davidson_cycles.

(** The energy recorded for a batch: [energy_sci += nuclear_repulsion_energy]. *)
Definition recorded_energy (out : SolveOut) : Q :=
  (energy_sci out + nuclear_repulsion_energy)%Q.

(** One turn of [for j in range(n_batches)]. *)
Definition solve_batch (bs : list BitstringMatrix) (acc : BatchAcc) (j : nat)
    : result BatchAcc :=
  batch ← getitem bs j;
  out ← solve batch;
  e ← setitem (int_e acc) j (recorded_energy out);
  s ← setitem (int_s acc) j (spin out);
  mret {| int_e := e; int_s := s;
          int_occs := int_occs acc ++ [avg_occs out];
          cs := cs acc ++ [coeffs_sci out] |}.

Definition empty_acc : BatchAcc :=
  {| int_e := np_zeros n_batches; int_s := np_zeros n_batches; int_occs := []; cs := [] |}.

Definition solving (bs : list BitstringMatrix) : result BatchAcc :=
  for_each (solve_batch bs) (seq 0 n_batches) empty_acc.

(** The accumulators once the first [n] batches were solved with the
    results [outs]: the invariant of the batch loop. *)
Definition acc_after (n : nat) (outs : list SolveOut) : BatchAcc :=
  {| int_e := (recorded_energy <$> outs) ++ replicate (n_batches - n) 0%Q;
     int_s := (spin <$> outs) ++ replicate (n_batches - n) 0%Q;
     int_occs := avg_occs <$> outs;
     cs := coeffs_sci <$> outs |}.

(** [avg_occupancy = tuple(np.mean(int_occs, axis=0))]. *)
Definition aggregating (acc : BatchAcc) : result (list Q) := np_mean_axis0 (int_occs acc).

(** The body of [for i in range(iterations)]. *)
Definition loop_body (st : Globals G) (i : nat) : result (Globals G) :=
  '(bs, pr, h, g1) ← recovering st;
  '(bts, g2) ← batching h bs pr g1;
  acc ← solving bts;
  avg ← aggregating acc;
  eh ← setitem (e_hist st) i (int_e acc);
  sh ← setitem (s_hist st) i (int_s acc);
  mret {| heap := h; rng := g2;
          e_hist := eh; s_hist := sh;
          occupancy_hist := occupancy_hist st ++ [avg];
          avg_occupancy := Some avg;
          bs_mat_tmp := Some bs; probs_arr_tmp := Some pr;
          batches := Some bts; solved := Some acc |}.

(** The first [k] rounds, and the whole loop. *)
Definition rounds (k : nat) (st : Globals G) : result (Globals G) :=
  for_each loop_body (seq 0 k) st.

Definition sqd_loop (h : Store) (g : G) : result (Globals G) :=
  rounds iterations (initial_globals h g).

(** ** Best batch (cell 10) and the hand-off to the optimizer (cell 12) *)

(** [best_batch = batches[np.argmin(e_hist[-1])]]. *)
Definition best_batch (st : Globals G) : result BitstringMatrix :=
  bs ← bound (batches st);
  row ← last_row (e_hist st);
  j ← np_argmin row;
  getitem bs j.

Definition num_params (num_orbitals : nat) : nat := num_orbitals ^ 2.

(** [k_flat = (rng.random(num_params) - 0.5) * 0.01]. *)
Definition k_flat_init (num_orbitals : nat) (g : G) : list Q * G :=
  let '(us, g') := random_sample (num_params num_orbitals) g in
  ((λ u : Q, (u - (1 # 2)) * (1 # 100))%Q <$> us, g').

(** The positional arguments [best_batch] and [k_flat] that
    [optimize_orbitals] receives when the notebook is run from the entry
    of cell 8. *)
Definition optimizer_input (num_orbitals : nat) (h : Store) (g : G)
    : result (BitstringMatrix * list Q) :=
  st ← sqd_loop h g;
  best ← best_batch st;
  let '(k_flat, _) := k_flat_init num_orbitals (rng st) in
  mret (best, k_flat).

(** ** Statements about a round *)

(** The results of the batches whose eigensolve converges. *)
Definition converged (bts : list BitstringMatrix) : list SolveOut :=
  omap (λ b, match solve b with Ok out => Some out | Raise _ => None end) bts.

(** Round [i] from [st] treats non-convergence as a per-batch failure:
    with at least one converged batch it goes on with the mean over the
    converged batches only, and it raises when no batch converged. *)
Definition tolerates_partial_failure (st : Globals G) (i : nat) : Prop :=
  ∀ bs pr h g1 bts g2,
    recovering st = Ok (bs, pr, h, g1) → batching h bs pr g1 = Ok (bts, g2) →
    match converged bts with
    | [] => ∃ e, loop_body st i = Raise e
    | outs =>
        ∃ st' avg, loop_body st i = Ok st'
                   ∧ np_mean_axis0 (avg_occs <$> outs) = Ok avg
                   ∧ avg_occupancy st' = Some avg
    end.

(** What a round leaves behind for the next one and for the reader: the
    contents of the arrays that went to postselection, the postselected
    rows and weights, the batches, the batch results, the occupancy
    estimate and the generator. *)
Record RoundView : Type := {
  view_bitstrings : BitstringMatrix;
  view_probs : list Q;
  view_postselected : BitstringMatrix * list Q;
  view_batches : list BitstringMatrix;
  view_solved : BatchAcc;
  view_occupancy : list Q;
  view_rng : G;
}.

Definition round_view (r : result (Globals G)) : result RoundView :=
  st ← r;
  bs ← bound (bs_mat_tmp st);
  pr ← bound (probs_arr_tmp st);
  m ← as_matrix (heap st) bs;
  p ← as_vector (heap st) pr;
  bts ← bound (batches st);
  acc ← bound (solved st);
  occ ← bound (avg_occupancy st);
  mret {| view_bitstrings := m; view_probs := p;
          view_postselected := postselect m p num_elec_a num_elec_b;
          view_batches := bts; view_solved := acc;
          view_occupancy := occ; view_rng := rng st |}.

(** The store holds the raw samples under the two names of cell 6. *)
Definition holds_raw (h : Store) (raw : BitstringMatrix) (raw_probs : list Q) : Prop :=
  as_matrix h bitstring_matrix_full = Ok raw ∧ as_vector h probs_arr_full = Ok raw_probs.

(** A round written as a function of the raw samples, the occupancy
    estimate and the generator alone, without the store: what
    [loop_body] is compared with. *)
Definition round_of (raw : BitstringMatrix) (raw_probs : list Q)
    (occupancy : option (list Q)) (g : G) : result RoundView :=
  let '((m, p), g1) :=
    match occupancy with
    | None => ((raw, raw_probs), g)
    | Some occ => recover_configurations raw raw_probs occ num_elec_a num_elec_b g
    end in
  '(bts, g2) ← postselect_and_subsample m p num_elec_a num_elec_b
                 samples_per_batch n_batches g1;
  acc ← solving bts;
  avg ← aggregating acc;
  mret {| view_bitstrings := m; view_probs := p;
          view_postselected := postselect m p num_elec_a num_elec_b;
          view_batches := bts; view_solved := acc;
          view_occupancy := avg; view_rng := g2 |}.

(** The occupancy estimate and the generator with which round [k] starts. *)
Fixpoint carried (k : nat) (raw : BitstringMatrix) (raw_probs : list Q) (g0 : G)
    : result (option (list Q) * G) :=
  match k with
  | 0 => Ok (None, g0)
  | S k' =>
      '(occ, g) ← carried k' raw raw_probs g0;
      v ← round_of raw raw_probs occ g;
      mret (Some (view_occupancy v), view_rng v)
  end.


End Notebook.

(** ** Determinant subspace (spec 4.4) *)





(** ** The rotation generator (spec 3, 4.6) *)

Definition Matrix : Type := list (list Q).

Definition entry (m : Matrix) (p q : nat) : Q := nth q (nth p m []) 0%Q.

Definition mat_init (n : nat) (f : nat → nat → Q) : Matrix :=
  (λ p, f p <$> seq 0 n) <$> seq 0 n.



(** kappa = - kappa^T, entry by entry. *)
Definition antisymmetric (n : nat) (kappa : Matrix) : Prop :=
  ∀ p q, p < n → q < n → (entry kappa p q == - entry kappa q p)%Q.

Definition skew_symmetrize (n : nat) (kappa : Matrix) : Matrix :=
  mat_init n (λ p q, ((entry kappa p q - entry kappa q p) / 2)%Q).

Section Descent.

(** The analytic gradient depends on the reduced density matrices of the
    current eigenvector, which come from the external eigensolver and
    change with every outer round: [gradient k] is the gradient that the
    update number [k] sees. *)
Context (num_orbitals : nat) (learning_rate momentum : Q).
Context (gradient : nat → Matrix → Matrix).

(** Modelled from the spec: one momentum-accelerated gradient-descent
    update of kappa, with antisymmetry re-enforced after the update
    (4.6, step 3).  The state is kappa and the previous update. *)
Definition gradient_update (k : nat) (s : Matrix * Matrix) : Matrix * Matrix :=
  let '(kappa, prev) := s in
  let grad := gradient k kappa in
  let upd := mat_init num_orbitals
               (λ p q, (learning_rate * entry grad p q + momentum * entry prev p q)%Q) in
  (skew_symmetrize num_orbitals
     (mat_init num_orbitals (λ p q, (entry kappa p q - entry upd p q)%Q)),
   upd).

(** The state after [n] updates, starting from [kappa0] with no
    previous update. *)
Fixpoint descend (n : nat) (kappa0 : Matrix) : Matrix * Matrix :=
  match n with
  | 0 => (kappa0, mat_init num_orbitals (λ _ _, 0%Q))
  | S k => gradient_update k (descend k kappa0)
  end.

End Descent.

(** ** A table-driven generator

    A generator whose draws repeat a fixed table; its state is the number
    of draws made so far.  It instantiates the abstract generator in the
    examples. *)
Definition table_rng (table : list Q) : Generator nat :=
  λ g, (nth (g mod length table) table 0%Q, S g).

(** ** More of the notebook *)

(** *** Cell 2: the electron counts

    [num_elec_a = (n_electrons + mol.spin) // 2] and
    [num_elec_b = (n_electrons - mol.spin) // 2]; Python's [//] on
    integers is the floor division, which is [Z.div]. *)
Definition num_elec_a_of (n_electrons mol_spin : Z) : Z :=
  ((n_electrons + mol_spin) `div` 2)%Z.
Definition num_elec_b_of (n_electrons mol_spin : Z) : Z :=
  ((n_electrons - mol_spin) `div` 2)%Z.

(** *** Cell 4: the rotation out of the MO basis

    [k_rot = (rng.random(num_params) - 0.5) * 0.5]. *)
Definition k_rot_init `{GenG : Generator G} (num_orbitals : nat) (g : G) : list Q * G :=
  let '(us, g') := random_sample (num_params num_orbitals) g in
  ((λ u : Q, (u - (1 # 2)) * (1 # 2))%Q <$> us, g').

(** *** Cells 10 and 14: the energies that are printed *)

(** [np.min]: the smallest entry; an empty array has no minimum. *)
Fixpoint min_from (best : Q) (xs : list Q) : Q :=
  match xs with
  | [] => best
  | x :: xs' => if Qlt_le_dec x best then min_from x xs' else min_from best xs'
  end.

Definition np_min (xs : list Q) : result Q :=
  match xs with
  | [] => Raise ValueError
  | x :: xs' => Ok (min_from x xs')
  end.

(** [e_hist[-1, np.argmin(e_hist[-1])]], printed by cell 10 as the energy
    of the best batch. *)
Definition best_energy {G : Type} (st : Globals G) : result Q :=
  row ← last_row (e_hist st);
  j ← np_argmin row;
  getitem row j.

(** [np.min(e_hist[-1])], printed by cell 14 as the SQD energy. *)
Definition sqd_energy {G : Type} (st : Globals G) : result Q :=
  row ← last_row (e_hist st);
  np_min row.

(** ** A small instance

    Two orbitals, one electron of each spin, four raw samples, two batches
    of two samples, two rounds.  The stand-in eigensolver looks only at
    the first row of the batch. *)

Definition row_A : Bitstring := [true; false; false; true].
Definition row_B : Bitstring := [false; true; true; false].
Definition row_C : Bitstring := [true; true; false; true].

Definition demo_raw : BitstringMatrix := [row_A; row_C; row_B; row_A].
Definition demo_probs : list Q := [1 # 4; 1 # 4; 1 # 4; 1 # 4].
Definition demo_table : list Q := [0; 3 # 4; 1 # 2; 1 # 4; 9 # 10]%Q.

Definition demo_out (e : Q) (occ : list Q) : SolveOut :=
  {| energy_sci := e; coeffs_sci := []; avg_occs := occ; spin := 0 |}.

Definition demo_solver (batch : BitstringMatrix) (_ _ : unit) (_ : bool) (_ : Q) (_ : nat)
    : result SolveOut :=
  match batch with
  | r :: _ =>
      if bool_decide (r = row_A)
      then Ok (demo_out (- 3) [1 # 2; 1 # 2])
      else Ok (demo_out (- 4) [1 # 4; 3 # 4])
  | [] => Raise EigensolveNonConvergence
  end.

(** An eigensolver that does not converge on the batches that start with
    [row_B]. *)
Definition picky_solver (batch : BitstringMatrix) (_ _ : unit) (_ : bool) (_ : Q) (_ : nat)
    : result SolveOut :=
  match batch with
  | r :: _ =>
      if bool_decide (r = row_B)
      then Raise EigensolveNonConvergence
      else Ok (demo_out (- 3) [1 # 2; 1 # 2])
  | [] => Raise EigensolveNonConvergence
  end.

Definition demo_setup_with
    (solver : BitstringMatrix → unit → unit → bool → Q → nat → result SolveOut)
    : Setup unit :=
  {| hcore_rot := tt; eri_rot := tt; solve_fermion := solver;
     open_shell := false; spin_sq := 0; nuclear_repulsion_energy := 1;
     num_elec_a := 1; num_elec_b := 1;
     iterations := 2; n_batches := 2; samples_per_batch := 2;
     max_davidson_cycles := 200 |}.

Definition demo_setup : Setup unit := demo_setup_with demo_solver.
Definition picky_setup : Setup unit := demo_setup_with picky_solver.

Definition demo_rng : Generator nat := table_rng demo_table.

Definition demo_start : Globals nat :=
  @initial_globals nat unit demo_setup (initial_store demo_raw demo_probs) 0.

Definition picky_start : Globals nat :=
  @initial_globals nat unit picky_setup (initial_store demo_raw demo_probs) 0.

(** Raw samples none of which has the target Hamming weights. *)
Definition barren_raw : BitstringMatrix := [row_C; row_C].
Definition barren_probs : list Q := [1 # 2; 1 # 2].

(** The state in which the loop of the small instance ends. *)
Definition demo_final : Globals nat :=
  match @sqd_loop nat demo_rng unit demo_setup (initial_store demo_raw demo_probs) 0 with
  | Ok st => st
  | Raise _ => demo_start
  end.


(** The small instance with no round at all, and with no batch. *)
Definition idle_setup : Setup unit :=
  {| hcore_rot := tt; eri_rot := tt; solve_fermion := demo_solver;
     open_shell := false; spin_sq := 0; nuclear_repulsion_energy := 1;
     num_elec_a := 1; num_elec_b := 1;
     iterations := 0; n_batches := 2; samples_per_batch := 2;
     max_davidson_cycles := 200 |}.

Definition batchless_setup : Setup unit :=
  {| hcore_rot := tt; eri_rot := tt; solve_fermion := demo_solver;
     open_shell := false; spin_sq := 0; nuclear_repulsion_energy := 1;
     num_elec_a := 1; num_elec_b := 1;
     iterations := 2; n_batches := 0; samples_per_batch := 2;
     max_davidson_cycles := 200 |}.

(** * Properties *)

(** ** The exception monad *)

Lemma bind_Ok {A B} (m : result A) (f : A → result B) (b : B) :
  m ≫= f = Ok b ↔ ∃ a, m = Ok a ∧ f a = Ok b.
Proof.
  destruct m as [a|e]; simpl; split.
  - intros H. by exists a.
  - by intros (a' & [= <-] & H).
  - intros [=].
  - by intros (a' & [=] & _).
Qed.

Lemma getitem_Ok {A} (xs : list A) (j : nat) (a : A) :
  getitem xs j = Ok a ↔ xs !! j = Some a.
Proof. unfold getitem. destruct (xs !! j); split; congruence. Qed.

Lemma setitem_Ok {A} (xs ys : list A) (j : nat) (x : A) :
  setitem xs j x = Ok ys ↔ j < length xs ∧ ys = <[j := x]> xs.
Proof.
  unfold setitem. destruct (decide (j < length xs)); split.
  - by intros [= <-].
  - by intros [_ ->].
  - done.
  - intros [? _]. lia.
Qed.

Lemma setitem_lt {A} (xs : list A) (j : nat) (x : A) :
  j < length xs → setitem xs j x = Ok (<[j := x]> xs).
Proof. intros Hj. by apply setitem_Ok. Qed.

Lemma for_each_app {A S} (body : S → A → result S) (xs ys : list A) (s : S) :
  for_each body (xs ++ ys) s = for_each body xs s ≫= for_each body ys.
Proof.
  revert s. induction xs as [|x xs IH]; intros s; simpl; [done|].
  destruct (body s x) as [s'|e]; simpl; [apply IH | done].
Qed.

(** Inversion of a successful computation, one bind at a time. *)
Ltac inv_Ok :=
  repeat match goal with
  | H : Ok _ = Ok _ |- _ => injection H as H; subst
  | H : Raise _ = Ok _ |- _ => discriminate H
  | H : mret _ = Ok _ |- _ => injection H as H; subst
  | H : _ ≫= _ = Ok _ |- _ =>
      let a := fresh "a" in
      let Ha := fresh "H" a in
      apply bind_Ok in H as (a & Ha & H)
  | H : (let '(_, _) := ?p in _) = Ok _ |- _ => destruct p eqn:?
  | p : (_ * _)%type |- _ => destruct p
  end.

(** ** Postselection and subsampling *)

Lemma postselect_rows (bs : BitstringMatrix) (pr : list Q) (hr hl : nat) (row : Bitstring) :
  row ∈ (postselect bs pr hr hl).1 →
  row ∈ bs ∧ popcount (right_half row) = hr ∧ popcount (left_half row) = hl.
Proof.
  unfold postselect. simpl. intros Hin.
  apply list_elem_of_fmap in Hin as ([r p] & -> & Hin).
  apply list_elem_of_filter in Hin as [Hok Hin]. simpl in *.
  unfold hamming_ok in Hok.
  apply andb_true_iff in Hok as [H1 H2].
  apply bool_decide_eq_true in H1, H2.
  split; [|done].
  apply elem_of_zip_l in Hin. done.
Qed.

Section GeneratorFacts.

Context `{GenG : Generator G}.

Lemma draw_row_elem pool g row g' :
  draw_row pool g = Ok (row, g') → row ∈ pool.
Proof.
  unfold draw_row. destruct (random g) as [u g1]. intros H.
  inv_Ok. apply getitem_Ok in Ha. by eapply list_elem_of_lookup_2.
Qed.

Lemma draw_batch_elem pool n g rows g' :
  draw_batch pool n g = Ok (rows, g') →
  length rows = n ∧ ∀ row, row ∈ rows → row ∈ pool.
Proof.
  revert g rows g'. induction n as [|n IH]; intros g rows g' H; simpl in H.
  - inv_Ok. split; [done|]. intros row Hin. by apply elem_of_nil in Hin.
  - inv_Ok. apply draw_row_elem in Ha. apply IH in Ha0 as [Hlen Hall].
    split; [simpl; by rewrite Hlen|].
    intros row Hin. apply elem_of_cons in Hin as [->|Hin]; auto.
Qed.

Lemma subsample_elem pool spb nb g bts g' :
  subsample pool spb nb g = Ok (bts, g') →
  length bts = nb ∧
  ∀ batch, batch ∈ bts → length batch = spb ∧ ∀ row, row ∈ batch → row ∈ pool.
Proof.
  revert g bts g'. induction nb as [|nb IH]; intros g bts g' H; simpl in H.
  - inv_Ok. split; [done|]. intros batch Hin. by apply elem_of_nil in Hin.
  - inv_Ok. apply draw_batch_elem in Ha. apply IH in Ha0 as [Hlen Hall].
    split; [simpl; by rewrite Hlen|].
    intros batch Hin. apply elem_of_cons in Hin as [->|Hin]; auto.
Qed.

Lemma postselect_and_subsample_Ok bs pr hr hl spb nb g bts g' :
  postselect_and_subsample bs pr hr hl spb nb g = Ok (bts, g') →
  (postselect bs pr hr hl).1 ≠ [] ∧
  subsample (postselect bs pr hr hl).1 spb nb g = Ok (bts, g').
Proof.
  unfold postselect_and_subsample.
  destruct (postselect bs pr hr hl) as [pool w]; simpl.
  destruct pool; [discriminate|]. done.
Qed.

Lemma postselect_and_subsample_empty bs pr hr hl spb nb g :
  (postselect bs pr hr hl).1 = [] →
  postselect_and_subsample bs pr hr hl spb nb g = Raise EmptySubspaceError.
Proof.
  unfold postselect_and_subsample.
  destruct (postselect bs pr hr hl) as [pool w]; simpl. by intros ->.
Qed.





End GeneratorFacts.

(** ** The loop over the batches of one round *)

Lemma bind_Ok_r {A} (m : result A) : m ≫= Ok = m.
Proof. by destruct m. Qed.

Lemma insert_app_replicate {A} (l : list A) (x z : A) (m : nat) :
  <[length l := x]> (l ++ replicate (S m) z) = (l ++ [x]) ++ replicate m z.
Proof.
  rewrite insert_app_r_alt by lia.
  replace (length l - length l) with 0 by lia.
  by rewrite <-app_assoc.
Qed.

Section BatchLoop.

Context `{NB : Setup Tensor}.

Lemma solve_batch_step bs n outs b out :
  n < n_batches → length outs = n →
  bs !! n = Some b → solve b = Ok out →
  solve_batch bs (acc_after n outs) n = Ok (acc_after (S n) (outs ++ [out])).
Proof.
  intros Hn Hlen Hb Hout. unfold solve_batch, getitem.
  rewrite Hb. simpl. rewrite Hout. simpl. unfold acc_after. simpl.
  rewrite !setitem_lt by (rewrite length_app, length_fmap, length_replicate; lia).
  simpl.
  replace (n_batches - n) with (S (n_batches - S n)) by lia.
  rewrite !fmap_app. simpl.
  f_equal. f_equal.
  - rewrite <-(insert_app_replicate (recorded_energy <$> outs)).
    by rewrite length_fmap, Hlen.
  - rewrite <-(insert_app_replicate (spin <$> outs)).
    by rewrite length_fmap, Hlen.
Qed.

Lemma solve_batch_Ok bs acc j acc' :
  solve_batch bs acc j = Ok acc' → ∃ b out, bs !! j = Some b ∧ solve b = Ok out.
Proof.
  unfold solve_batch. intros Hs. inv_Ok. apply getitem_Ok in Ha. eauto.
Qed.

(** A prefix of the batch loop succeeds exactly when each of its batches
    exists and converges. *)
Lemma batch_loop_Ok bs n acc :
  n ≤ n_batches →
  for_each (solve_batch bs) (seq 0 n) empty_acc = Ok acc ↔
  ∃ outs, Forall2 (λ b out, solve b = Ok out) (take n bs) outs
          ∧ length outs = n ∧ acc = acc_after n outs.
Proof.
  revert acc. induction n as [|n IH]; intros acc Hn.
  - simpl. split.
    + intros [= <-]. exists []. rewrite take_0. split; [constructor|]. split; [done|].
      unfold acc_after, empty_acc, np_zeros. simpl. by rewrite Nat.sub_0_r.
    + intros (outs & _ & Hlen & ->). destruct outs; [|done].
      unfold acc_after, empty_acc, np_zeros. simpl. by rewrite Nat.sub_0_r.
  - rewrite seq_S, for_each_app. simpl. rewrite bind_Ok. split.
    + intros (acc' & Hacc' & Hstep).
      apply IH in Hacc' as (outs & Hall & Hlen & ->); [|lia].
      rewrite bind_Ok_r in Hstep.
      destruct (solve_batch_Ok _ _ _ _ Hstep) as (b & out & Hb & Hout).
      exists (outs ++ [out]). split.
      { rewrite (take_S_r _ _ _ Hb). apply Forall2_app; [done|]. by repeat constructor. }
      split; [rewrite length_app; simpl; lia|].
      rewrite (solve_batch_step bs n outs b out) in Hstep by (done || lia).
      by injection Hstep.
    + intros (outs & Hall & Hlen & ->).
      assert (Hbs : is_Some (bs !! n)).
      { apply lookup_lt_is_Some. apply Forall2_length in Hall.
        rewrite length_take in Hall. lia. }
      destruct Hbs as [b Hb].
      rewrite (take_S_r _ _ _ Hb) in Hall.
      apply Forall2_app_inv_l in Hall as (outs1 & outs2 & H1 & H2 & ->).
      apply Forall2_cons_inv_l in H2 as (out & outs3 & Hout & H3 & ->).
      apply Forall2_nil_inv_l in H3 as ->.
      rewrite length_app in Hlen. simpl in Hlen.
      exists (acc_after n outs1). split.
      * apply IH; [lia|]. exists outs1. split; [done|]. split; [lia|done].
      * rewrite bind_Ok_r. apply (solve_batch_step bs n outs1 b out); [lia|lia|done|done].
Qed.

Lemma solving_Ok bs acc :
  length bs = n_batches →
  solving bs = Ok acc ↔
  ∃ outs, Forall2 (λ b out, solve b = Ok out) bs outs ∧ acc = acc_after n_batches outs.
Proof.
  intros Hlen. unfold solving. rewrite batch_loop_Ok by lia.
  rewrite take_ge by lia. split.
  - intros (outs & H & _ & ->). by exists outs.
  - intros (outs & H & ->). exists outs. split; [done|]. split; [|done].
    apply Forall2_length in H. lia.
Qed.

Lemma acc_after_all outs :
  length outs = n_batches →
  acc_after n_batches outs =
    {| int_e := recorded_energy <$> outs; int_s := spin <$> outs;
       int_occs := avg_occs <$> outs; cs := coeffs_sci <$> outs |}.
Proof.
  intros Hlen. unfold acc_after. rewrite Nat.sub_diag. simpl.
  by rewrite !app_nil_r.
Qed.

(** One batch that does not converge makes the whole batch loop raise. *)
Lemma solving_Raise bs b e :
  length bs = n_batches → b ∈ bs → solve b = Raise e →
  ∃ e', solving bs = Raise e'.
Proof.
  intros Hlen Hin Hb.
  destruct (solving bs) as [acc|e'] eqn:Hs; [|by exists e'].
  apply solving_Ok in Hs as (outs & Hall & _); [|done].
  apply list_elem_of_lookup in Hin as [j Hj].
  destruct (Forall2_lookup_l _ _ _ _ _ Hall Hj) as (out & _ & Hout). congruence.
Qed.

End BatchLoop.

(** ** The rounds of the loop *)

Section Rounds.

Context `{GenG : Generator G} `{NB : Setup Tensor}.

Lemma rounds_S k (st : Globals G) :
  rounds (S k) st = rounds k st ≫= λ st', loop_body st' k.
Proof.
  unfold rounds. rewrite seq_S, for_each_app. simpl.
  destruct (for_each loop_body (seq 0 k) st); simpl; [|done].
  apply bind_Ok_r.
Qed.

(** The stages of a round that succeeds. *)
Lemma loop_body_Ok (st st' : Globals G) i :
  loop_body st i = Ok st' ↔
  ∃ bs pr h g1 bts g2 acc avg,
    recovering st = Ok (bs, pr, h, g1) ∧ batching h bs pr g1 = Ok (bts, g2) ∧
    solving bts = Ok acc ∧ aggregating acc = Ok avg ∧
    i < length (e_hist st) ∧ i < length (s_hist st) ∧
    st' = {| heap := h; rng := g2;
             e_hist := <[i := int_e acc]> (e_hist st);
             s_hist := <[i := int_s acc]> (s_hist st);
             occupancy_hist := occupancy_hist st ++ [avg];
             avg_occupancy := Some avg;
             bs_mat_tmp := Some bs; probs_arr_tmp := Some pr;
             batches := Some bts; solved := Some acc |}.
Proof.
  unfold loop_body. split.
  - intros Hb. inv_Ok.
    apply setitem_Ok in Ha3 as [He ->]. apply setitem_Ok in Ha4 as [Hs ->].
    by repeat eexists.
  - intros (bs & pr & h & g1 & bts & g2 & acc & avg & -> & Hb & Hs & Ha & He & Hh & ->).
    simpl. rewrite Hb. simpl. rewrite Hs. simpl. rewrite Ha. simpl.
    by rewrite !setitem_lt.
Qed.

(** A round that raises ends the loop with that exception. *)
Lemma rounds_Raise k n (st0 st : Globals G) e :
  rounds k st0 = Ok st → loop_body st k = Raise e → k < n →
  rounds n st0 = Raise e.
Proof.
  intros Hk Hbody Hlt. unfold rounds in *.
  replace n with (k + (1 + (n - S k))) by lia.
  rewrite !seq_app, !for_each_app, Hk. simpl. by rewrite Hbody.
Qed.

Lemma batching_length h bs pr g1 bts g2 :
  batching h bs pr g1 = Ok (bts, g2) → length bts = n_batches.
Proof.
  unfold batching. intros Hb. inv_Ok.
  apply postselect_and_subsample_Ok in Hb as [_ Hb].
  by apply subsample_elem in Hb as [Hlen _].
Qed.

(** *** The store only grows *)

Lemma recovering_prefix (st : Globals G) bs pr h g1 :
  recovering st = Ok (bs, pr, h, g1) → heap st `prefix_of` h.
Proof.
  unfold recovering. destruct (avg_occupancy st) as [occ|]; intros Hr.
  - inv_Ok. unfold alloc in *. simplify_eq.
    rewrite <-app_assoc. by apply prefix_app_r.
  - by inv_Ok.
Qed.

Lemma loop_body_prefix (st st' : Globals G) i :
  loop_body st i = Ok st' → heap st `prefix_of` heap st'.
Proof.
  intros (bs & pr & h & g1 & bts & g2 & acc & avg & Hr & _ & _ & _ & _ & _ & ->)%loop_body_Ok.
  simpl. by eapply recovering_prefix.
Qed.

Lemma rounds_prefix k (st st' : Globals G) :
  rounds k st = Ok st' → heap st `prefix_of` heap st'.
Proof.
  revert st'. induction k as [|k IH]; intros st'.
  - by intros [= ->].
  - rewrite rounds_S. intros Hr. inv_Ok.
    etrans; [by apply IH|]. by eapply loop_body_prefix.
Qed.

(** *** The energy history *)

Lemma rounds_e_hist_length k (st st' : Globals G) :
  rounds k st = Ok st' →
  length (e_hist st') = length (e_hist st) ∧ length (s_hist st') = length (s_hist st).
Proof.
  revert st'. induction k as [|k IH]; intros st'.
  - by intros [= ->].
  - rewrite rounds_S. intros Hr. inv_Ok.
    apply loop_body_Ok in Hr
      as (? & ? & ? & ? & ? & ? & ? & ? & _ & _ & _ & _ & _ & _ & ->).
    simpl. rewrite !length_insert. by apply IH.
Qed.

Lemma rounds_hist_length k (h0 : list ndarray) (g0 : G) (st : Globals G) :
  rounds k (initial_globals h0 g0) = Ok st →
  length (e_hist st) = iterations ∧ length (s_hist st) = iterations.
Proof.
  intros [-> ->]%rounds_e_hist_length. simpl. unfold np_zeros2.
  by rewrite length_replicate.
Qed.

(** After a last round of index [length e_hist - 1], the row [e_hist[-1]]
    holds the energies recorded in that round, the batches are those of
    that round, and each recorded energy is that of its batch. *)
Lemma final_round (st0 st : Globals G) k :
  rounds (S k) st0 = Ok st → length (e_hist st0) = S k →
  ∃ bts outs,
    batches st = Some bts ∧ length bts = n_batches ∧
    Forall2 (λ b out, solve b = Ok out) bts outs ∧
    solved st = Some (acc_after n_batches outs) ∧
    last_row (e_hist st) = Ok (recorded_energy <$> outs).
Proof.
  rewrite rounds_S. intros Hr Hlen. inv_Ok.
  apply rounds_e_hist_length in Ha as [Ha _].
  apply loop_body_Ok in Hr
    as (bs & pr & h & g1 & bts & g2 & acc & avg & _ & Hb & Hs & _ & _ & _ & ->).
  apply batching_length in Hb.
  apply solving_Ok in Hs as (outs & Hall & ->); [|done].
  assert (Hlo : length outs = n_batches) by (apply Forall2_length in Hall; lia).
  exists bts, outs. cbn [batches solved e_hist]. repeat split; try done.
  unfold last_row. rewrite last_lookup, length_insert, Ha, Hlen.
  cbn [pred]. rewrite list_lookup_insert_eq by lia.
  by rewrite acc_after_all.
Qed.

End Rounds.

(** ** [np.argmin] and [np.mean] *)

Lemma argmin_from_first_min (pre xs : list Q) (best_i : nat) (best : Q) :
  first_min pre best_i best →
  ∃ v, first_min (pre ++ xs) (argmin_from best_i best (length pre) xs) v.
Proof.
  revert pre best_i best. induction xs as [|x xs IH]; intros pre best_i best Hmin.
  - simpl. rewrite app_nil_r. by exists best.
  - simpl. destruct Hmin as (Hat & Hle & Hlt).
    replace (pre ++ x :: xs) with ((pre ++ [x]) ++ xs) by by rewrite <-app_assoc.
    replace (S (length pre)) with (length (pre ++ [x]))
      by (rewrite length_app; simpl; lia).
    destruct (Qlt_le_dec x best) as [Hx|Hx]; apply IH; repeat split.
    + rewrite lookup_app_r by lia. by rewrite Nat.sub_diag.
    + intros k w Hk. apply lookup_app_Some in Hk as [Hk|[_ Hk]].
      * apply Qlt_le_weak. eapply Qlt_le_trans; [exact Hx|]. by eapply Hle.
      * apply list_lookup_singleton_Some in Hk as [_ <-]. apply Qle_refl.
    + intros k w Hk Hw. rewrite lookup_app_l in Hw by lia.
      eapply Qlt_le_trans; [exact Hx|]. by eapply Hle.
    + apply lookup_app_l_Some. done.
    + intros k w Hk. apply lookup_app_Some in Hk as [Hk|[_ Hk]].
      * by eapply Hle.
      * by apply list_lookup_singleton_Some in Hk as [_ <-].
    + intros k w Hk Hw. apply lookup_app_Some in Hw as [Hw|[Hge Hw]].
      * by eapply Hlt.
      * apply lookup_lt_Some in Hat. lia.
Qed.

Lemma np_argmin_Ok (xs : list Q) :
  xs ≠ [] → ∃ j v, np_argmin xs = Ok j ∧ first_min xs j v.
Proof.
  destruct xs as [|x xs]; [done|]. intros _. simpl.
  destruct (argmin_from_first_min [x] xs 0 x) as [v Hv].
  - repeat split.
    + intros k w Hk. apply list_lookup_singleton_Some in Hk as [_ <-]. apply Qle_refl.
    + intros k w Hk. lia.
  - eauto.
Qed.

Lemma np_mean_axis0_Ok (rows : list (list Q)) (avg : list Q) :
  np_mean_axis0 rows = Ok avg →
  rows ≠ [] ∧
  ∀ k, k < length avg →
    avg !! k = Some (sum_Q (column k rows) / inject_Z (Z.of_nat (length rows)))%Q.
Proof.
  unfold np_mean_axis0. destruct rows as [|r rows]; [done|].
  destruct (forallb _ _); [|done]. intros [= <-]. split; [done|].
  intros k Hk. rewrite length_fmap, length_seq in Hk.
  rewrite list_lookup_fmap, lookup_seq_lt by done. done.
Qed.

(** ** The raw arrays, and what a round depends on *)

Section Frame.

Context `{GenG : Generator G} `{NB : Setup Tensor}.

Lemma holds_raw_prefix (h h' : Store) raw pr :
  holds_raw h raw pr → h `prefix_of` h' → holds_raw h' raw pr.
Proof.
  unfold holds_raw, as_matrix, as_vector. intros [Hm Hp] Hpre.
  destruct (h !! bitstring_matrix_full) as [a|] eqn:Ha; [|done].
  destruct (h !! probs_arr_full) as [b|] eqn:Hb; [|done].
  apply (prefix_lookup_Some _ h') in Ha, Hb; [|done..].
  by rewrite Ha, Hb.
Qed.

Lemma holds_raw_initial raw pr : holds_raw (initial_store raw pr) raw pr.
Proof. done. Qed.

Lemma rounds_holds_raw k (st0 st : Globals G) raw pr :
  holds_raw (heap st0) raw pr → rounds k st0 = Ok st → holds_raw (heap st) raw pr.
Proof. intros Hraw Hr. eapply holds_raw_prefix; [done|]. by eapply rounds_prefix. Qed.

(** The arrays that [recover_configurations] returns are new objects. *)
Lemma as_matrix_alloc (h : Store) m a :
  as_matrix (h ++ [BoolMatrix m; a]) (length h) = Ok m.
Proof.
  unfold as_matrix. rewrite lookup_app_r by lia. by rewrite Nat.sub_diag.
Qed.

Lemma as_vector_alloc (h : Store) a v :
  as_vector (h ++ [a; FloatVector v]) (S (length h)) = Ok v.
Proof.
  unfold as_vector. rewrite lookup_app_r by lia.
  by replace (S (length h) - length h) with 1 by lia.
Qed.

(** What the [if]/[else] of the loop body computes, in a store that holds
    the raw samples. *)
Lemma recovering_holds_raw (st : Globals G) raw pr :
  holds_raw (heap st) raw pr →
  recovering st =
    match avg_occupancy st with
    | None => Ok (bitstring_matrix_full, probs_arr_full, heap st, rng st)
    | Some occ =>
        let '((m, p), g1) :=
          recover_configurations raw pr occ num_elec_a num_elec_b (rng st) in
        Ok (length (heap st), S (length (heap st)),
            heap st ++ [BoolMatrix m; FloatVector p], g1)
    end.
Proof.
  intros [Hm Hp]. unfold recovering. destruct (avg_occupancy st) as [occ|]; [|done].
  rewrite Hm, Hp. simpl.
  destruct (recover_configurations raw pr occ num_elec_a num_elec_b (rng st))
    as [[m p] g1].
  unfold alloc. rewrite length_app. simpl.
  by rewrite <-app_assoc, Nat.add_1_r.
Qed.

(** The store-free round is what the loop body computes. *)
Lemma loop_body_view (st : Globals G) i raw pr :
  holds_raw (heap st) raw pr →
  i < length (e_hist st) → i < length (s_hist st) →
  round_view (loop_body st i) = round_of raw pr (avg_occupancy st) (rng st).
Proof.
  intros Hraw He Hs. unfold loop_body, round_of.
  rewrite (recovering_holds_raw st raw pr Hraw).
  destruct (avg_occupancy st) as [occ|].
  - destruct (recover_configurations raw pr occ num_elec_a num_elec_b (rng st))
      as [[m p] g1]. simpl.
    unfold batching. rewrite as_matrix_alloc, as_vector_alloc. simpl.
    destruct (postselect_and_subsample m p _ _ _ _ g1) as [[bts g2]|e]; [|done]. simpl.
    destruct (solving bts) as [acc|e]; [|done]. simpl.
    destruct (aggregating acc) as [avg|e]; [|done]. simpl.
    rewrite !setitem_lt by done. simpl.
    by rewrite as_matrix_alloc, as_vector_alloc.
  - destruct Hraw as [Hm Hp]. simpl.
    unfold batching. rewrite Hm, Hp. simpl.
    destruct (postselect_and_subsample raw pr _ _ _ _ (rng st)) as [[bts g2]|e]; [|done].
    simpl.
    destruct (solving bts) as [acc|e]; [|done]. simpl.
    destruct (aggregating acc) as [avg|e]; [|done]. simpl.
    rewrite !setitem_lt by done. simpl.
    by rewrite Hm, Hp.
Qed.

(** A round that succeeds has a view, and the view shows the occupancy
    estimate and the generator that the next round starts with. *)
Lemma loop_body_view_Ok (st st' : Globals G) i raw pr :
  holds_raw (heap st) raw pr → loop_body st i = Ok st' →
  ∃ v, round_of raw pr (avg_occupancy st) (rng st) = Ok v
       ∧ avg_occupancy st' = Some (view_occupancy v) ∧ rng st' = view_rng v.
Proof.
  intros Hraw Hbody.
  apply loop_body_Ok in Hbody as Hstages.
  destruct Hstages
    as (bs & p & h & g1 & bts & g2 & acc & avg & Hrec & Hbat & _ & _ & He & Hs & ->).
  assert (Hv := loop_body_view st i raw pr Hraw He Hs). rewrite Hbody in Hv.
  unfold round_view in Hv. simpl in Hv.
  unfold batching in Hbat. inv_Ok.
  rewrite Ha, Ha0 in Hv. simpl in Hv. eauto.
Qed.

Lemma loop_body_view_Raise (st : Globals G) i raw pr e :
  holds_raw (heap st) raw pr →
  i < length (e_hist st) → i < length (s_hist st) →
  loop_body st i = Raise e →
  round_of raw pr (avg_occupancy st) (rng st) = Raise e.
Proof.
  intros Hraw He Hs Hbody. by rewrite <-(loop_body_view st i raw pr Hraw He Hs), Hbody.
Qed.

(** The occupancy estimate and the generator are all that the rounds
    hand on. *)
Lemma rounds_carried k (h0 : Store) (g0 : G) raw pr :
  holds_raw h0 raw pr → k ≤ iterations →
  match rounds k (initial_globals h0 g0) with
  | Ok st => carried k raw pr g0 = Ok (avg_occupancy st, rng st)
  | Raise e => carried k raw pr g0 = Raise e
  end.
Proof.
  intros Hraw. induction k as [|k IH]; intros Hk; [done|].
  rewrite rounds_S. simpl. specialize (IH ltac:(lia)).
  destruct (rounds k (initial_globals h0 g0)) as [st|e] eqn:Hrk; simpl.
  - rewrite IH. simpl.
    assert (Hst : holds_raw (heap st) raw pr)
      by exact (rounds_holds_raw k (initial_globals h0 g0) st raw pr Hraw Hrk).
    destruct (rounds_hist_length _ _ _ _ Hrk) as [He Hs].
    destruct (loop_body st k) as [st'|e] eqn:Hbody.
    + destruct (loop_body_view_Ok _ _ _ _ _ Hst Hbody) as (v & -> & -> & ->). done.
    + rewrite (loop_body_view_Raise st k raw pr e); [done|done|lia|lia|done].
  - by rewrite IH.
Qed.


End Frame.

(** ** Index strings of a determinant subspace *)











(** ** The rotation generator *)

Lemma entry_mat_init (n : nat) (f : nat → nat → Q) (p q : nat) :
  p < n → q < n → entry (mat_init n f) p q = f p q.
Proof.
  intros Hp Hq. unfold entry, mat_init.
  rewrite !nth_lookup, list_lookup_fmap, lookup_seq_lt by done. simpl.
  by rewrite list_lookup_fmap, lookup_seq_lt.
Qed.

Lemma skew_symmetrize_antisymmetric (n : nat) (kappa : Matrix) :
  antisymmetric n (skew_symmetrize n kappa).
Proof.
  intros p q Hp Hq. unfold skew_symmetrize.
  rewrite !entry_mat_init by done. field.
Qed.

(** Antisymmetry holds after every update of the descent. *)
Lemma descend_antisymmetric (num_orbitals : nat) (learning_rate momentum : Q)
    (gradient : nat → Matrix → Matrix) (n : nat) (kappa0 : Matrix) :
  antisymmetric num_orbitals
    (descend num_orbitals learning_rate momentum gradient (S n) kappa0).1.
Proof.
  cbn [descend]. unfold gradient_update.
  destruct (descend num_orbitals learning_rate momentum gradient n kappa0) as [kappa prev].
  apply skew_symmetrize_antisymmetric.
Qed.

Lemma random_sample_length `{GenG : Generator G} (n : nat) (g : G) :
  length (random_sample n g).1 = n.
Proof.
  revert g. induction n as [|n IH]; intros g; [done|].
  simpl. destruct (random g) as [u g1]. specialize (IH g1).
  destruct (random_sample n g1) as [us g2]. simpl in *. by rewrite IH.
Qed.




(** ** Configuration recovery keeps the shape and moves toward the target *)

Section RecoveryFacts.

Context `{GenG : Generator G}.

Lemma popcount_nil : popcount [] = 0.
Proof. done. Qed.

Lemma popcount_cons (b : bool) (bits : list bool) :
  popcount (b :: bits) = (if b then 1 else 0) + popcount bits.
Proof. unfold popcount. rewrite filter_cons. by destruct b. Qed.

#[local] Arguments popcount : simpl never.

Lemma resample_sector_length inconsistent budget bits occ (g : G) :
  length (resample_sector inconsistent budget bits occ g).1 = length bits.
Proof.
  revert budget occ g. induction bits as [|b bits IH]; intros budget occ g; [done|].
  simpl. destruct (_ && _).
  - destruct (random g) as [u g1]. destruct (Qlt_le_dec _ _).
    + specialize (IH (budget - 1) (tl occ) g1).
      destruct (resample_sector _ _ _ _ g1). simpl in *. by rewrite IH.
    + specialize (IH budget (tl occ) g1).
      destruct (resample_sector _ _ _ _ g1). simpl in *. by rewrite IH.
  - specialize (IH budget (tl occ) g).
    destruct (resample_sector _ _ _ _ g). simpl in *. by rewrite IH.
Qed.

(** At most [budget] bits are flipped, and only bits that hold the value
    the sector has too often. *)
Lemma resample_sector_popcount inconsistent budget bits occ (g : G) :
  let r := (resample_sector inconsistent budget bits occ g).1 in
  if inconsistent
  then popcount r ≤ popcount bits ∧ popcount bits ≤ popcount r + budget
  else popcount bits ≤ popcount r ∧ popcount r ≤ popcount bits + budget.
Proof.
  revert budget occ g. induction bits as [|b bits IH]; intros budget occ g.
  - simpl. rewrite popcount_nil. destruct inconsistent; lia.
  - simpl. destruct (bool_decide (b = inconsistent)) eqn:Hb; simpl.
    + apply bool_decide_eq_true in Hb. subst b.
      destruct (bool_decide (0 < budget)) eqn:Hbudget.
      * apply bool_decide_eq_true in Hbudget.
        destruct (random g) as [u g1]. destruct (Qlt_le_dec _ _).
        -- specialize (IH (budget - 1) (tl occ) g1).
           destruct (resample_sector _ _ _ _ g1) as [r g2]. simpl in *.
           rewrite !popcount_cons. destruct inconsistent; simpl; lia.
        -- specialize (IH budget (tl occ) g1).
           destruct (resample_sector _ _ _ _ g1) as [r g2]. simpl in *.
           rewrite !popcount_cons. destruct inconsistent; simpl; lia.
      * specialize (IH budget (tl occ) g).
        destruct (resample_sector _ _ _ _ g) as [r g2]. simpl in *.
        rewrite !popcount_cons. destruct inconsistent; simpl; lia.
    + specialize (IH budget (tl occ) g).
      destruct (resample_sector _ _ _ _ g) as [r g2]. simpl in *.
      rewrite !popcount_cons. destruct inconsistent; simpl; lia.
Qed.

(** The population of a recovered sector lies between the sampled
    population and the target. *)
Lemma recover_sector_toward_target target bits occ (g : G) :
  let pop := popcount bits in
  let pop' := popcount (recover_sector target bits occ g).1 in
  (target ≤ pop → target ≤ pop' ≤ pop) ∧ (pop ≤ target → pop ≤ pop' ≤ target).
Proof.
  intros pop pop'. subst pop pop'. unfold recover_sector.
  destruct (bool_decide (target < popcount bits)) eqn:Hlt.
  - apply bool_decide_eq_true in Hlt.
    assert (H := resample_sector_popcount true (popcount bits - target) bits occ g).
    simpl in H. lia.
  - apply bool_decide_eq_false in Hlt.
    assert (H := resample_sector_popcount false (target - popcount bits) bits occ g).
    simpl in H. lia.
Qed.

Lemma recover_rows_length occ na nb rows (g : G) :
  length (recover_rows occ na nb rows g).1 = length rows.
Proof.
  revert g. induction rows as [|b rows IH]; intros g; [done|].
  simpl. destruct (recover_row occ na nb b g) as [b' g1].
  specialize (IH g1). destruct (recover_rows occ na nb rows g1). simpl in *.
  by rewrite IH.
Qed.

(** The contract of spec 4.1: same number of rows, aligned probabilities. *)
Lemma recover_configurations_shape bs pr occ na nb (g : G) :
  length (recover_configurations bs pr occ na nb g).1.1 = length bs
  ∧ (recover_configurations bs pr occ na nb g).1.2 = pr.
Proof.
  unfold recover_configurations.
  assert (H := recover_rows_length occ na nb bs g).
  by destruct (recover_rows occ na nb bs g).
Qed.

End RecoveryFacts.

(** * Main results *)

Section Orchestrator.

Context `{GenG : Generator G} `{NB : Setup Tensor}.

(** C2.  In every configuration-recovery round, every row of every batch
    that postselection and subsampling produce has a spin-up half of
    population exactly [num_elec_a] and a spin-down half of population
    exactly [num_elec_b]. *)
Theorem batches_have_target_weights (st : Globals G) bs pr h g1 bts g2 batch row :
  recovering st = Ok (bs, pr, h, g1) →
  batching h bs pr g1 = Ok (bts, g2) →
  batch ∈ bts → row ∈ batch →
  popcount (spin_up_half row) = num_elec_a ∧ popcount (spin_dn_half row) = num_elec_b.
Proof.
  intros _ Hb Hbatch Hrow. unfold batching in Hb. inv_Ok.
  apply postselect_and_subsample_Ok in Hb as [_ Hb].
  apply subsample_elem in Hb as [_ Hall].
  destruct (Hall _ Hbatch) as [_ Hrows].
  apply Hrows, postselect_rows in Hrow as (_ & Hr & Hl). done.
Qed.

(** C3.  In round 0 there is no occupancy estimate: the names that go on
    to postselection are bound to the two raw arrays themselves, the
    store and the generator are as they were, and postselection is
    called on the raw matrix and the raw probability vector. *)
Theorem round0_passes_raw_arrays_through (raw : BitstringMatrix) (pr : list Q) (g : G) :
  let h := initial_store raw pr in
  let st := initial_globals h g in
  rounds 1 st = loop_body st 0
  ∧ recovering st = Ok (bitstring_matrix_full, probs_arr_full, h, g)
  ∧ as_matrix h bitstring_matrix_full = Ok raw
  ∧ as_vector h probs_arr_full = Ok pr
  ∧ batching h bitstring_matrix_full probs_arr_full g
    = postselect_and_subsample raw pr num_elec_a num_elec_b samples_per_batch n_batches g
  ∧ match loop_body st 0 with
    | Ok st' =>
        heap st' = h
        ∧ bs_mat_tmp st' = Some bitstring_matrix_full
        ∧ probs_arr_tmp st' = Some probs_arr_full
    | Raise _ => True
    end.
Proof.
  intros h st. repeat split.
  - rewrite rounds_S. reflexivity.
  - destruct (loop_body st 0) as [st'|e] eqn:Hbody; [|done].
    apply loop_body_Ok in Hbody
      as (bs & p & h' & g1 & bts & g2 & acc & avg & Hrec & _ & _ & _ & _ & _ & ->).
    simpl in Hrec. by injection Hrec as <- <- <- <-.
Qed.

(** C8.  When Hamming postselection leaves no row in round [k], the call
    raises [EmptySubspaceError]; nothing in the notebook catches it, so
    the round, the loop and the run up to the optimizer raise it too. *)
Theorem empty_postselection_is_fatal (h0 : Store) (g0 : G) (st : Globals G) k
    bs pr h g1 m p (num_orbitals : nat) :
  k < iterations →
  rounds k (initial_globals h0 g0) = Ok st →
  recovering st = Ok (bs, pr, h, g1) →
  as_matrix h bs = Ok m → as_vector h pr = Ok p →
  (postselect m p num_elec_a num_elec_b).1 = [] →
  batching h bs pr g1 = Raise EmptySubspaceError
  ∧ loop_body st k = Raise EmptySubspaceError
  ∧ sqd_loop h0 g0 = Raise EmptySubspaceError
  ∧ optimizer_input num_orbitals h0 g0 = Raise EmptySubspaceError.
Proof.
  intros Hk Hrounds Hrec Hm Hp Hempty.
  assert (Hb : batching h bs pr g1 = Raise EmptySubspaceError).
  { unfold batching. rewrite Hm, Hp. simpl.
    by apply postselect_and_subsample_empty. }
  assert (Hbody : loop_body st k = Raise EmptySubspaceError).
  { unfold loop_body. rewrite Hrec. simpl. by rewrite Hb. }
  assert (Hloop : sqd_loop h0 g0 = Raise EmptySubspaceError).
  { unfold sqd_loop. by eapply rounds_Raise. }
  repeat split; try done.
  unfold optimizer_input. by rewrite Hloop.
Qed.

(** C4.  When the loop has run its rounds, [st] is the state that the
    final round leaves, [batches] are the batches of that round and the
    last row of [e_hist] holds their recorded energies; the batch that
    cell 10 selects and cell 12 hands to [optimize_orbitals] is the first
    of these batches whose recorded energy is lowest. *)
Theorem best_batch_is_final_round_argmin (h0 : Store) (g0 : G) (st : Globals G)
    (num_orbitals : nat) :
  0 < iterations → 0 < n_batches →
  sqd_loop h0 g0 = Ok st →
  ∃ prev bts outs jmin best out_min,
    rounds (iterations - 1) (initial_globals h0 g0) = Ok prev
    ∧ loop_body prev (iterations - 1) = Ok st
    ∧ batches st = Some bts
    ∧ Forall2 (λ b out, solve b = Ok out) bts outs
    ∧ last_row (e_hist st) = Ok (recorded_energy <$> outs)
    ∧ bts !! jmin = Some best
    ∧ outs !! jmin = Some out_min
    ∧ (∀ j out, outs !! j = Some out →
         (recorded_energy out_min <= recorded_energy out)%Q)
    ∧ (∀ j out, j < jmin → outs !! j = Some out →
         (recorded_energy out_min < recorded_energy out)%Q)
    ∧ best_batch st = Ok best
    ∧ optimizer_input num_orbitals h0 g0
      = Ok (best, (k_flat_init num_orbitals (rng st)).1).
Proof.
  intros Hit Hnb Hrun. unfold sqd_loop in Hrun.
  destruct iterations as [|k] eqn:Hk; [lia|].
  assert (Hprev : ∃ prev, rounds k (initial_globals h0 g0) = Ok prev
                          ∧ loop_body prev k = Ok st).
  { rewrite rounds_S in Hrun. apply bind_Ok in Hrun as (prev & H1 & H2). eauto. }
  destruct Hprev as (prev & Hprev & Hlast_round).
  destruct (final_round _ _ _ Hrun) as (bts & outs & Hbts & Hlen & Hall & _ & Hlast).
  { simpl. unfold np_zeros2. rewrite length_replicate. by rewrite Hk. }
  assert (Hlo : length outs = n_batches) by (apply Forall2_length in Hall; lia).
  destruct (np_argmin_Ok (recorded_energy <$> outs)) as (jmin & v & Harg & Hat & Hle & Hlt).
  { destruct outs; simpl in *; [lia|done]. }
  rewrite list_lookup_fmap in Hat.
  destruct (outs !! jmin) as [out_min|] eqn:Hout; [|done].
  injection Hat as <-.
  destruct (Forall2_lookup_r _ _ _ _ _ Hall Hout) as (best & Hbest & _).
  assert (Hbb : best_batch st = Ok best).
  { unfold best_batch. rewrite Hbts. simpl. rewrite Hlast. simpl.
    rewrite Harg. simpl. by apply getitem_Ok. }
  exists prev, bts, outs, jmin, best, out_min.
  replace (S k - 1) with k by lia. repeat split; try done.
  - intros j out Hj. apply (Hle j). by rewrite list_lookup_fmap, Hj.
  - intros j out Hjlt Hj. apply (Hlt j); [done|]. by rewrite list_lookup_fmap, Hj.
  - unfold optimizer_input, sqd_loop. rewrite Hk, Hrun. simpl. rewrite Hbb. simpl.
    by destruct (k_flat_init num_orbitals (rng st)).
Qed.

(** C1, as the notebook has it.  The results of all the batches of a
    round enter the aggregation: a round succeeds exactly when the
    eigensolve of every one of its [n_batches] batches converges (and
    their occupancies can be averaged), its occupancy estimate is then
    the arithmetic mean over all [n_batches] batches, and one batch that
    does not converge makes the round, and with it the run, raise. *)
Theorem round_aggregates_every_batch (h0 : Store) (g0 : G) (st : Globals G) k
    bs pr h g1 bts g2 :
  k < iterations →
  rounds k (initial_globals h0 g0) = Ok st →
  recovering st = Ok (bs, pr, h, g1) →
  batching h bs pr g1 = Ok (bts, g2) →
  (∀ st', loop_body st k = Ok st' →
     ∃ outs avg,
       Forall2 (λ b out, solve b = Ok out) bts outs
       ∧ length outs = n_batches
       ∧ avg_occupancy st' = Some avg
       ∧ ∀ j, j < length avg →
           avg !! j = Some (sum_Q (column j (avg_occs <$> outs))
                            / inject_Z (Z.of_nat n_batches))%Q)
  ∧ (∀ outs avg,
       Forall2 (λ b out, solve b = Ok out) bts outs →
       np_mean_axis0 (avg_occs <$> outs) = Ok avg →
       ∃ st', loop_body st k = Ok st' ∧ avg_occupancy st' = Some avg)
  ∧ (∀ b e, b ∈ bts → solve b = Raise e →
       ∃ e', loop_body st k = Raise e' ∧ sqd_loop h0 g0 = Raise e').
Proof.
  intros Hk Hrounds Hrec Hbat.
  assert (Hlen := batching_length _ _ _ _ _ _ Hbat).
  split; [|split].
  - intros st' Hbody.
    apply loop_body_Ok in Hbody
      as (bs' & pr' & h' & g1' & bts' & g2' & acc & avg & Hrec' & Hbat' & Hs & Ha & _ & _ & ->).
    rewrite Hrec in Hrec'. simplify_eq. rewrite Hbat in Hbat'. simplify_eq.
    apply solving_Ok in Hs as (outs & Hall & ->); [|done].
    assert (Hlo : length outs = length bts') by (by apply Forall2_length in Hall).
    exists outs, avg. repeat split; try done; [lia|].
    intros j Hj. unfold aggregating in Ha. simpl in Ha.
    apply np_mean_axis0_Ok in Ha as [_ Ha].
    rewrite (Ha j Hj), length_fmap. by rewrite Hlo, Hlen.
  - intros outs avg Hall Hmean.
    set (acc := acc_after n_batches outs).
    exists {| heap := h; rng := g2;
              e_hist := <[k := int_e acc]> (e_hist st);
              s_hist := <[k := int_s acc]> (s_hist st);
              occupancy_hist := occupancy_hist st ++ [avg];
              avg_occupancy := Some avg;
              bs_mat_tmp := Some bs; probs_arr_tmp := Some pr;
              batches := Some bts; solved := Some acc |}.
    split; [|done].
    destruct (rounds_hist_length _ _ _ _ Hrounds) as [He Hh].
    apply loop_body_Ok. exists bs, pr, h, g1, bts, g2, acc, avg.
    repeat split; try done; try lia.
    apply solving_Ok; [done|]. by exists outs.
  - intros b e Hin Hb.
    destruct (solving_Raise bts b e Hlen Hin Hb) as [e' He'].
    exists e'.
    assert (Hbody : loop_body st k = Raise e').
    { unfold loop_body. rewrite Hrec. simpl. rewrite Hbat. simpl. by rewrite He'. }
    split; [done|]. unfold sqd_loop. by eapply rounds_Raise.
Qed.

(** C10.  After any number of rounds the two raw arrays still hold what
    the sampler gave (the store has only grown); from round 1 on,
    [recover_configurations] is computed from the raw samples, not from
    what [bs_mat_tmp] held before; and what round [k] computes is a
    function of the raw samples, the occupancy estimate and the generator
    state alone, the two things that the rounds before it hand on. *)
Theorem raw_arrays_are_never_mutated (raw : BitstringMatrix) (pr : list Q) (g0 : G)
    (k : nat) (st : Globals G) :
  k ≤ iterations →
  rounds k (initial_globals (initial_store raw pr) g0) = Ok st →
  initial_store raw pr `prefix_of` heap st
  ∧ holds_raw (heap st) raw pr
  ∧ (∀ occ, avg_occupancy st = Some occ →
       ∃ bs p h g1 m' p',
         recovering st = Ok (bs, p, h, g1)
         ∧ recover_configurations raw pr occ num_elec_a num_elec_b (rng st) = ((m', p'), g1)
         ∧ as_matrix h bs = Ok m' ∧ as_vector h p = Ok p'
         ∧ holds_raw h raw pr)
  ∧ (k < iterations →
     round_view (loop_body st k) = round_of raw pr (avg_occupancy st) (rng st))
  ∧ carried k raw pr g0 = Ok (avg_occupancy st, rng st).
Proof.
  intros Hk Hrun.
  assert (Hpre : initial_store raw pr `prefix_of` heap st) by (by apply rounds_prefix in Hrun).
  assert (Hraw : holds_raw (heap st) raw pr).
  { eapply holds_raw_prefix; [apply holds_raw_initial|done]. }
  repeat split; try done.
  - by destruct Hraw.
  - by destruct Hraw.
  - intros occ Hocc.
    assert (Hrec := recovering_holds_raw st raw pr Hraw). rewrite Hocc in Hrec.
    destruct (recover_configurations raw pr occ num_elec_a num_elec_b (rng st))
      as [[m' p'] g1].
    exists (length (heap st)), (S (length (heap st))),
           (heap st ++ [BoolMatrix m'; FloatVector p']), g1, m', p'.
    split; [done|]. split; [done|].
    split; [apply as_matrix_alloc|]. split; [apply as_vector_alloc|].
    eapply holds_raw_prefix; [done|]. by apply prefix_app_r.
  - intros Hlt. destruct (rounds_hist_length _ _ _ _ Hrun) as [He Hs].
    apply loop_body_view; [done|lia|lia].
  - assert (Hc := rounds_carried k (initial_store raw pr) g0 raw pr
                    (holds_raw_initial raw pr) ltac:(lia)).
    by rewrite Hrun in Hc.
Qed.


End Orchestrator.



(** ** The results on the small instance *)

Lemma batches_have_target_weights_witness :
  popcount (spin_up_half row_B) = 1 ∧ popcount (spin_dn_half row_B) = 1.
Proof.
  apply (@batches_have_target_weights nat demo_rng unit demo_setup demo_start
           0 1 (initial_store demo_raw demo_probs) 0
           [[row_A; row_A]; [row_B; row_A]] 4 [row_B; row_A] row_B).
  - reflexivity.
  - reflexivity.
  - apply list_elem_of_In; simpl; auto.
  - apply list_elem_of_In; simpl; auto.
Defined.

Lemma empty_postselection_is_fatal_witness :
  @sqd_loop nat demo_rng unit demo_setup (initial_store barren_raw barren_probs) 0
  = Raise EmptySubspaceError.
Proof.
  apply (@empty_postselection_is_fatal nat demo_rng unit demo_setup
           (initial_store barren_raw barren_probs) 0
           (@initial_globals nat unit demo_setup (initial_store barren_raw barren_probs) 0)
           0 0 1 (initial_store barren_raw barren_probs) 0 barren_raw barren_probs 2).
  - simpl. lia.
  - reflexivity.
  - reflexivity.
  - reflexivity.
  - reflexivity.
  - reflexivity.
Defined.

Lemma best_batch_is_final_round_argmin_witness :
  ∃ best,
    best_batch demo_final = Ok best
    ∧ @optimizer_input nat demo_rng unit demo_setup 2 (initial_store demo_raw demo_probs) 0
      = Ok (best, (@k_flat_init nat demo_rng 2 (rng demo_final)).1).
Proof.
  destruct (@best_batch_is_final_round_argmin nat demo_rng unit demo_setup
              (initial_store demo_raw demo_probs) 0 demo_final 2)
    as (prev & bts & outs & jmin & best & out_min & H); [simpl; lia|simpl; lia| |].
  - vm_compute. reflexivity.
  - exists best. split; apply H.
Defined.

(** C1, as stated, fails on the notebook: in round 0 of the small instance
    the first batch converges and the second does not; the round should go
    on with the occupancies of the first batch alone, and it raises. *)
Lemma partial_failure_is_not_tolerated :
  ¬ @tolerates_partial_failure nat demo_rng unit picky_setup picky_start 0.
Proof.
  intros Hclaim.
  specialize (Hclaim 0 1 (initial_store demo_raw demo_probs) 0
                [[row_A; row_A]; [row_B; row_A]] 4 eq_refl eq_refl).
  destruct Hclaim as (st' & avg & Hbody & _).
  vm_compute in Hbody. discriminate Hbody.
Qed.

Lemma round_aggregates_every_batch_witness :
  ∃ e, @loop_body nat demo_rng unit picky_setup picky_start 0 = Raise e
       ∧ @sqd_loop nat demo_rng unit picky_setup (initial_store demo_raw demo_probs) 0
         = Raise e.
Proof.
  apply (@round_aggregates_every_batch nat demo_rng unit picky_setup
           (initial_store demo_raw demo_probs) 0 picky_start 0
           0 1 (initial_store demo_raw demo_probs) 0
           [[row_A; row_A]; [row_B; row_A]] 4)
    with (b := [row_B; row_A]) (e := EigensolveNonConvergence).
  - simpl. lia.
  - reflexivity.
  - reflexivity.
  - reflexivity.
  - apply list_elem_of_In; simpl; auto.
  - reflexivity.
Defined.

Lemma raw_arrays_are_never_mutated_witness :
  holds_raw (heap demo_final) demo_raw demo_probs.
Proof.
  apply (@raw_arrays_are_never_mutated nat demo_rng unit demo_setup
           demo_raw demo_probs 0 2 demo_final).
  - simpl. lia.
  - vm_compute. reflexivity.
Defined.




(** * Further properties of the notebook *)

(** ** Cell 2: electron counts *)

(** X1.  The two electron counts always differ by the spin, and they add
    up to the number of electrons when that number and the spin have the
    same parity; otherwise one electron is lost to the floor division. *)
Theorem electron_counts (n_electrons mol_spin : Z) :
  (num_elec_a_of n_electrons mol_spin - num_elec_b_of n_electrons mol_spin = mol_spin)%Z
  ∧ (num_elec_a_of n_electrons mol_spin + num_elec_b_of n_electrons mol_spin
     = n_electrons - (n_electrons + mol_spin) `mod` 2)%Z.
Proof.
  unfold num_elec_a_of, num_elec_b_of.
  assert (Ha := Z.div_mod (n_electrons + mol_spin) 2 ltac:(lia)).
  assert (Hb := Z.div_mod (n_electrons - mol_spin) 2 ltac:(lia)).
  assert (Hra := Z.mod_pos_bound (n_electrons + mol_spin) 2 ltac:(lia)).
  assert (Hrb := Z.mod_pos_bound (n_electrons - mol_spin) 2 ltac:(lia)).
  assert (Hsame : ((n_electrons - mol_spin) `mod` 2 = (n_electrons + mol_spin) `mod` 2)%Z).
  { replace (n_electrons + mol_spin)%Z with (n_electrons - mol_spin + mol_spin * 2)%Z by lia.
    by rewrite Z.mod_add. }
  lia.
Qed.

(** ** Cells 10 and 14: the printed energies *)

Lemma argmin_from_min_from (pre xs : list Q) (best_i : nat) (best : Q) :
  pre !! best_i = Some best →
  (pre ++ xs) !! argmin_from best_i best (length pre) xs = Some (min_from best xs).
Proof.
  revert pre best_i best. induction xs as [|x xs IH]; intros pre best_i best Hat.
  - simpl. rewrite app_nil_r. done.
  - simpl.
    replace (pre ++ x :: xs) with ((pre ++ [x]) ++ xs) by by rewrite <-app_assoc.
    replace (S (length pre)) with (length (pre ++ [x]))
      by (rewrite length_app; simpl; lia).
    destruct (Qlt_le_dec x best); apply IH.
    + rewrite lookup_app_r by lia. by rewrite Nat.sub_diag.
    + by apply lookup_app_l_Some.
Qed.

Lemma np_min_is_argmin_entry (row : list Q) :
  np_min row = (j ← np_argmin row; getitem row j).
Proof.
  destruct row as [|x xs]; [done|]. simpl. unfold getitem.
  assert (H := argmin_from_min_from [x] xs 0 x eq_refl).
  simpl in H. by rewrite H.
Qed.

(** X2.  The energy that cell 10 prints for the best batch and the SQD
    energy that cell 14 prints are the same number, and the two
    expressions fail in the same way when there is no last row or no
    batch. *)
Theorem printed_energies_agree {G : Type} (st : Globals G) :
  sqd_energy st = best_energy st.
Proof.
  unfold sqd_energy, best_energy.
  destruct (last_row (e_hist st)) as [row|e]; [|done]. simpl.
  apply np_min_is_argmin_entry.
Qed.

(** ** Cell 8: the histories *)

Section Histories.

Context `{GenG : Generator G} `{NB : Setup Tensor}.

Lemma solving_lengths (bts : list BitstringMatrix) (acc : BatchAcc) :
  length bts = n_batches → solving bts = Ok acc →
  length (int_e acc) = n_batches ∧ length (int_s acc) = n_batches
  ∧ length (int_occs acc) = n_batches.
Proof.
  intros Hlen (outs & Hall & ->)%solving_Ok; [|done].
  apply Forall2_length in Hall.
  rewrite acc_after_all by lia. simpl. rewrite !length_fmap. lia.
Qed.

(** X3.  After [k] rounds the histories hold one entry per round, in
    order: row [i] of [e_hist] and of [s_hist] is what round [i] recorded
    and [occupancy_hist[i]] is the occupancy estimate that round [i]
    produced; a later round never overwrites an earlier entry. *)
Theorem history_rows_are_kept (h0 : list ndarray) (g0 : G) (k : nat) (st : Globals G) :
  k ≤ iterations →
  rounds k (initial_globals h0 g0) = Ok st →
  length (occupancy_hist st) = k
  ∧ ∀ i, i < k →
      ∃ st_i acc_i occ_i,
        rounds (S i) (initial_globals h0 g0) = Ok st_i
        ∧ solved st_i = Some acc_i
        ∧ avg_occupancy st_i = Some occ_i
        ∧ e_hist st !! i = Some (int_e acc_i)
        ∧ s_hist st !! i = Some (int_s acc_i)
        ∧ occupancy_hist st !! i = Some occ_i.
Proof.
  revert st. induction k as [|k IH]; intros st Hk Hrun.
  - injection Hrun as <-. split; [done|]. intros i Hi. lia.
  - assert (Hrun' := Hrun). rewrite rounds_S in Hrun'.
    apply bind_Ok in Hrun' as (prev & Hprev & Hbody).
    destruct (IH prev ltac:(lia) Hprev) as [Hocc Hrows].
    destruct (rounds_hist_length _ _ _ _ Hprev) as [He Hs].
    apply loop_body_Ok in Hbody
      as (bs & pr & h & g1 & bts & g2 & acc & avg & _ & _ & _ & _ & _ & _ & Hst).
    split.
    { rewrite Hst. simpl. rewrite length_app, Hocc. simpl. lia. }
    intros i Hi. destruct (decide (i = k)) as [->|Hne].
    + exists st, acc, avg. rewrite Hst. simpl. rewrite <-Hst.
      split; [done|]. split; [done|]. split; [done|].
      rewrite !list_lookup_insert_eq by lia.
      split; [done|]. split; [done|].
      rewrite lookup_app_r by lia. by rewrite Hocc, Nat.sub_diag.
    + destruct (Hrows i ltac:(lia)) as (st_i & acc_i & occ_i & H1 & H2 & H3 & H4 & H5 & H6).
      exists st_i, acc_i, occ_i. rewrite Hst. simpl.
      split; [done|]. split; [done|]. split; [done|].
      rewrite !list_lookup_insert_ne by done.
      split; [done|]. split; [done|].
      by apply lookup_app_l_Some.
Qed.

(** X4.  The energy and spin histories keep the shape they were created
    with, [iterations] rows of [n_batches] entries, and the rows of the
    rounds that have not run yet are still zero. *)
Theorem history_shape (h0 : list ndarray) (g0 : G) (k : nat) (st : Globals G) :
  rounds k (initial_globals h0 g0) = Ok st →
  length (e_hist st) = iterations
  ∧ length (s_hist st) = iterations
  ∧ Forall (λ row, length row = n_batches) (e_hist st)
  ∧ Forall (λ row, length row = n_batches) (s_hist st)
  ∧ ∀ i, k ≤ i → i < iterations →
      e_hist st !! i = Some (np_zeros n_batches)
      ∧ s_hist st !! i = Some (np_zeros n_batches).
Proof.
  revert st. induction k as [|k IH]; intros st Hrun.
  - injection Hrun as <-. simpl. unfold np_zeros2, np_zeros.
    rewrite !length_replicate. repeat split.
    + apply Forall_replicate. by rewrite length_replicate.
    + apply Forall_replicate. by rewrite length_replicate.
    + by apply lookup_replicate_2.
    + by apply lookup_replicate_2.
  - rewrite rounds_S in Hrun. apply bind_Ok in Hrun as (prev & Hprev & Hbody).
    destruct (IH prev Hprev) as (He & Hs & Hre & Hrs & Hzero).
    apply loop_body_Ok in Hbody
      as (bs & pr & h & g1 & bts & g2 & acc & avg & _ & Hbat & Hsolve & _ & _ & _ & ->).
    apply batching_length in Hbat.
    destruct (solving_lengths bts acc Hbat Hsolve) as (Hle & Hls & _).
    simpl. rewrite !length_insert. repeat split; try done.
    + by apply Forall_insert.
    + by apply Forall_insert.
    + rewrite list_lookup_insert_ne by lia. apply Hzero; lia.
    + rewrite list_lookup_insert_ne by lia. apply Hzero; lia.
Qed.

End Histories.


(** ** Cell 8: the loop over the batches *)


Lemma forallb_true_Forall {A} (f : A → bool) (l : list A) :
  forallb f l = true → Forall (λ x, f x = true) l.
Proof.
  induction l as [|x l IH]; simpl; [constructor|].
  intros [Hx Hl]%andb_true_iff. constructor; auto.
Qed.

Lemma sum_Q_bounds (lo hi : Q) (xs : list Q) :
  Forall (λ x, (lo <= x)%Q ∧ (x <= hi)%Q) xs →
  (inject_Z (Z.of_nat (length xs)) * lo <= sum_Q xs)%Q
  ∧ (sum_Q xs <= inject_Z (Z.of_nat (length xs)) * hi)%Q.
Proof.
  induction 1 as [|x xs [Hlo Hhi] _ [IHlo IHhi]].
  - unfold sum_Q. cbn [foldr length]. change (inject_Z (Z.of_nat 0)) with 0%Q.
    split; lra.
  - unfold sum_Q. cbn [foldr length]. fold (sum_Q xs).
    rewrite Nat2Z.inj_succ, <-Z.add_1_r, inject_Z_plus.
    change (inject_Z 1) with 1%Q. split; nra.
Qed.


(** The mean of each column lies between the bounds of the entries. *)
Lemma np_mean_axis0_bounds (lo hi : Q) (rows : list (list Q)) (avg : list Q) :
  np_mean_axis0 rows = Ok avg →
  Forall (Forall (λ x, (lo <= x)%Q ∧ (x <= hi)%Q)) rows →
  Forall (λ x, (lo <= x)%Q ∧ (x <= hi)%Q) avg
  ∧ Forall (λ r, length r = length avg) rows.
Proof.
  unfold np_mean_axis0. destruct rows as [|r rows]; [done|].
  destruct (forallb _ _) eqn:Hsame; [|done]. intros [= <-] Hrows.
  apply forallb_true_Forall in Hsame.
  assert (Hlens : Forall (λ r', length r' = length r) (r :: rows)).
  { eapply Forall_impl; [exact Hsame|]. intros r' Hr'. by apply bool_decide_eq_true in Hr'. }
  split; [|by rewrite length_fmap, length_seq].
  apply Forall_fmap, Forall_forall. intros k Hk%elem_of_seq. cbn beta.
  set (col := column k (r :: rows)).
  assert (Hcol : Forall (λ x, (lo <= x)%Q ∧ (x <= hi)%Q) col).
  { unfold col, column. apply Forall_fmap, Forall_forall. intros r' Hr'. simpl.
    rewrite Forall_forall in Hlens, Hrows.
    specialize (Hlens r' Hr'). specialize (Hrows r' Hr'). simpl in Hlens.
    destruct (lookup_lt_is_Some_2 r' k ltac:(lia)) as [x Hx].
    rewrite (nth_lookup_Some _ _ _ _ Hx).
    rewrite Forall_forall in Hrows. apply Hrows. by eapply list_elem_of_lookup_2. }
  destruct (sum_Q_bounds lo hi col Hcol) as [Hlo Hhi].
  assert (Hn : length col = length (r :: rows)) by (unfold col, column; by rewrite length_fmap).
  rewrite Hn in Hlo, Hhi.
  set (n := inject_Z (Z.of_nat (length (r :: rows)))) in *.
  assert (Hpos : (0 < n)%Q).
  { unfold n. change 0%Q with (inject_Z 0). rewrite <-Zlt_Qlt. simpl. lia. }
  split.
  - apply (Qle_shift_div_l lo (sum_Q col) n Hpos). lra.
  - apply (Qle_shift_div_r (sum_Q col) n hi Hpos). lra.
Qed.

Section BatchFailures.

Context `{GenG : Generator G} `{NB : Setup Tensor}.

Lemma converging_prefix (bts : list BitstringMatrix) (j : nat) :
  j ≤ length bts →
  (∀ i b, i < j → bts !! i = Some b → ∃ out, solve b = Ok out) →
  ∃ outs, Forall2 (λ b out, solve b = Ok out) (take j bts) outs.
Proof.
  induction j as [|j IH]; intros Hj Hconv.
  - exists []. rewrite take_0. constructor.
  - destruct (lookup_lt_is_Some_2 bts j ltac:(lia)) as [b Hb].
    destruct IH as [outs Houts]; [lia|intros i b' Hi; apply Hconv; lia|].
    destruct (Hconv j b ltac:(lia) Hb) as [out Hout].
    exists (outs ++ [out]). rewrite (take_S_r _ _ _ Hb).
    apply Forall2_app; [done|]. by repeat constructor.
Qed.

(** X5.  The loop over the batches stops at the first batch whose
    eigensolve raises, with that batch's exception: the batches before it
    were solved, the batches after it are not. *)
Theorem batch_loop_stops_at_first_failure (bts : list BitstringMatrix) (j : nat)
    (b : BitstringMatrix) (e : exn) :
  length bts = n_batches →
  bts !! j = Some b → solve b = Raise e →
  (∀ i b', i < j → bts !! i = Some b' → ∃ out, solve b' = Ok out) →
  solving bts = Raise e
  ∧ ∃ outs, for_each (solve_batch bts) (seq 0 j) empty_acc = Ok (acc_after j outs)
            ∧ Forall2 (λ b' out, solve b' = Ok out) (take j bts) outs.
Proof.
  intros Hlen Hb He Hconv.
  assert (Hj : j < n_batches) by (apply lookup_lt_Some in Hb; lia).
  destruct (converging_prefix bts j ltac:(lia) Hconv) as [outs Houts].
  assert (Hlo : length outs = j).
  { apply Forall2_length in Houts. rewrite length_take in Houts. lia. }
  assert (Hpre : for_each (solve_batch bts) (seq 0 j) empty_acc = Ok (acc_after j outs)).
  { apply batch_loop_Ok; [lia|]. by exists outs. }
  split; [|by exists outs].
  unfold solving.
  replace n_batches with (j + S (n_batches - S j)) by lia.
  rewrite seq_app, for_each_app, Hpre. simpl.
  assert (Hstep : solve_batch bts (acc_after j outs) j = Raise e).
  { unfold solve_batch, getitem. rewrite Hb. simpl. by rewrite He. }
  by rewrite Hstep.
Qed.




(** X7.  With no round to run the loop leaves everything as it was,
    [batches] is never bound, and cell 10 fails with a [NameError] before
    it looks at the energies. *)
Theorem no_round_no_best_batch (h : list ndarray) (g : G) (num_orbitals : nat) :
  iterations = 0 →
  sqd_loop h g = Ok (initial_globals h g)
  ∧ best_batch (initial_globals h g) = Raise NameError
  ∧ optimizer_input num_orbitals h g = Raise NameError.
Proof.
  intros Hit. unfold optimizer_input, sqd_loop. rewrite Hit. done.
Qed.

(** X8.  With no batch, a round that gets through postselection has no
    occupancy to average: the mean of the empty list is not a tuple and
    the round fails with a [TypeError]. *)
Theorem no_batch_no_occupancy (st : Globals G) (i : nat) bs pr h g1 bts g2 :
  n_batches = 0 →
  recovering st = Ok (bs, pr, h, g1) →
  batching h bs pr g1 = Ok (bts, g2) →
  bts = [] ∧ loop_body st i = Raise TypeError.
Proof.
  intros Hnb Hrec Hbat.
  assert (Hlen := batching_length _ _ _ _ _ _ Hbat). rewrite Hnb in Hlen.
  destruct bts; [|done]. split; [done|].
  unfold loop_body. rewrite Hrec. simpl. rewrite Hbat. simpl.
  unfold solving. rewrite Hnb. simpl. done.
Qed.

(** X9.  When the loop has run, the SQD energy that cell 14 prints is the
    energy that the eigensolver returned for the batch handed to the
    optimizer, plus the nuclear repulsion energy. *)
Theorem sqd_energy_is_best_batch_energy (h0 : list ndarray) (g0 : G) (st : Globals G) :
  0 < iterations → 0 < n_batches →
  sqd_loop h0 g0 = Ok st →
  ∃ best out,
    best_batch st = Ok best
    ∧ solve best = Ok out
    ∧ sqd_energy st = Ok (energy_sci out + nuclear_repulsion_energy)%Q.
Proof.
  intros Hit Hnb Hrun. unfold sqd_loop in Hrun.
  destruct iterations as [|k] eqn:Hk; [lia|].
  destruct (final_round _ _ _ Hrun) as (bts & outs & Hbts & Hlen & Hall & _ & Hlast).
  { simpl. unfold np_zeros2. rewrite length_replicate. by rewrite Hk. }
  assert (Hlo : length outs = n_batches) by (apply Forall2_length in Hall; lia).
  destruct (np_argmin_Ok (recorded_energy <$> outs)) as (jmin & v & Harg & Hat & _).
  { destruct outs; simpl in *; [lia|done]. }
  assert (Hv := Hat). rewrite list_lookup_fmap in Hat.
  destruct (outs !! jmin) as [out_min|] eqn:Hout; [|done].
  injection Hat as <-.
  destruct (Forall2_lookup_r _ _ _ _ _ Hall Hout) as (best & Hbest & Hsolve).
  exists best, out_min. split; [|split; [done|]].
  - unfold best_batch. rewrite Hbts. simpl. rewrite Hlast. simpl.
    rewrite Harg. simpl. by apply getitem_Ok.
  - unfold sqd_energy. rewrite Hlast. simpl.
    rewrite np_min_is_argmin_entry, Harg. simpl. by apply getitem_Ok.
Qed.

(** X11.  If every occupancy that the eigensolver reports lies between 0
    and 1, so does every entry of the occupancy estimate that a round
    hands to the next one, and the estimate has the length of the
    reported vectors. *)
Theorem occupancy_estimate_stays_in_range (st st' : Globals G) (i : nat) :
  (∀ b out, solve b = Ok out → Forall (λ x, (0 <= x)%Q ∧ (x <= 1)%Q) (avg_occs out)) →
  loop_body st i = Ok st' →
  ∃ avg bts,
    avg_occupancy st' = Some avg
    ∧ batches st' = Some bts
    ∧ Forall (λ x, (0 <= x)%Q ∧ (x <= 1)%Q) avg
    ∧ ∀ b out, b ∈ bts → solve b = Ok out → length (avg_occs out) = length avg.
Proof.
  intros Hrange Hbody.
  apply loop_body_Ok in Hbody
    as (bs & pr & h & g1 & bts & g2 & acc & avg & _ & Hbat & Hsolve & Hagg & _ & _ & ->).
  apply batching_length in Hbat.
  apply solving_Ok in Hsolve as (outs & Hall & ->); [|done].
  assert (Hlo := Forall2_length _ _ _ Hall).
  unfold aggregating in Hagg. rewrite acc_after_all in Hagg by lia. simpl in Hagg.
  destruct (np_mean_axis0_bounds 0 1 _ _ Hagg) as [Havg Hlens].
  { apply Forall_fmap, Forall_forall. intros out Hin. simpl.
    apply list_elem_of_lookup in Hin as [j Hj].
    destruct (Forall2_lookup_r _ _ _ _ _ Hall Hj) as (b & _ & Hb). by eapply Hrange. }
  exists avg, bts. simpl. repeat split; try done.
  intros b out Hin Hout.
  apply list_elem_of_lookup in Hin as [j Hj].
  destruct (Forall2_lookup_l _ _ _ _ _ Hall Hj) as (out' & Hj' & Hout').
  assert (out' = out) as -> by congruence.
  rewrite Forall_fmap, Forall_forall in Hlens. apply Hlens.
  by eapply list_elem_of_lookup_2.
Qed.

End BatchFailures.

(** ** Cells 4 and 12: the initial rotation parameters *)

Section Parameters.

Context `{GenG : Generator G}.

Lemma random_sample_draws (n : nat) (g : G) (u : Q) :
  u ∈ (random_sample n g).1 → ∃ g', u = (random g').1.
Proof.
  revert g. induction n as [|n IH]; intros g; simpl.
  - intros Hin. by apply elem_of_nil in Hin.
  - destruct (random g) as [u0 g1] eqn:Hg. specialize (IH g1).
    destruct (random_sample n g1) as [us g2]. simpl in *.
    intros [->|Hin]%elem_of_cons; [|by apply IH].
    exists g. by rewrite Hg.
Qed.

(** X10.  With draws in the unit interval, each of the [num_orbitals ^ 2]
    parameters of [k_rot] lies in [[-1/4, 1/4)] and each of those of
    [k_flat] in [[-1/200, 1/200)]: the optimization starts near zero. *)
Theorem initial_parameters_are_small (num_orbitals : nat) (g : G) :
  unit_draws →
  length (k_rot_init num_orbitals g).1 = num_orbitals ^ 2
  ∧ (∀ x, x ∈ (k_rot_init num_orbitals g).1 → (- (1 # 4) <= x)%Q ∧ (x < 1 # 4)%Q)
  ∧ (∀ x, x ∈ (k_flat_init num_orbitals g).1 → (- (1 # 200) <= x)%Q ∧ (x < 1 # 200)%Q).
Proof.
  intros Hunit. unfold k_rot_init, k_flat_init, num_params.
  assert (Hlen := random_sample_length (num_orbitals ^ 2) g).
  assert (Hdraws := random_sample_draws (num_orbitals ^ 2) g).
  destruct (random_sample (num_orbitals ^ 2) g) as [us g']. simpl in *.
  split; [by rewrite length_fmap|].
  split; intros x (u & -> & Hu)%list_elem_of_fmap;
    destruct (Hdraws u Hu) as [g1 ->]; destruct (Hunit g1) as [H0 H1]; split; lra.
Qed.

End Parameters.

(** ** The further properties on the small instance *)

Lemma demo_rng_unit_draws : @unit_draws nat demo_rng.
Proof.
  intros g. unfold random, demo_rng, table_rng. cbn [fst length demo_table].
  assert (Hg := Nat.mod_upper_bound g 5 ltac:(lia)).
  destruct (g mod 5) as [|[|[|[|[|n]]]]]; [..|lia]; cbn [nth]; split; done.
Qed.

Lemma history_rows_are_kept_witness :
  length (occupancy_hist demo_final) = 2.
Proof.
  apply (@history_rows_are_kept nat demo_rng unit demo_setup
           (initial_store demo_raw demo_probs) 0 2 demo_final).
  - simpl. lia.
  - vm_compute. reflexivity.
Defined.

Lemma history_shape_witness :
  length (e_hist demo_final) = 2.
Proof.
  apply (@history_shape nat demo_rng unit demo_setup
           (initial_store demo_raw demo_probs) 0 2 demo_final).
  vm_compute. reflexivity.
Defined.

Lemma batch_loop_stops_at_first_failure_witness :
  @solving unit picky_setup [[row_A; row_A]; [row_B; row_A]] = Raise EigensolveNonConvergence.
Proof.
  apply (@batch_loop_stops_at_first_failure unit picky_setup
           [[row_A; row_A]; [row_B; row_A]] 1 [row_B; row_A] EigensolveNonConvergence).
  - reflexivity.
  - reflexivity.
  - reflexivity.
  - intros i b' Hi Hb'. destruct i as [|i]; [|lia].
    injection Hb' as <-. eexists. reflexivity.
Defined.


Lemma no_round_no_best_batch_witness :
  @optimizer_input nat demo_rng unit idle_setup 2 (initial_store demo_raw demo_probs) 0
  = Raise NameError.
Proof.
  apply (@no_round_no_best_batch nat demo_rng unit idle_setup
           (initial_store demo_raw demo_probs) 0 2).
  reflexivity.
Defined.

Lemma no_batch_no_occupancy_witness :
  @loop_body nat demo_rng unit batchless_setup
    (@initial_globals nat unit batchless_setup (initial_store demo_raw demo_probs) 0) 0
  = Raise TypeError.
Proof.
  apply (@no_batch_no_occupancy nat demo_rng unit batchless_setup
           (@initial_globals nat unit batchless_setup (initial_store demo_raw demo_probs) 0)
           0 0 1 (initial_store demo_raw demo_probs) 0 [] 0).
  - reflexivity.
  - reflexivity.
  - reflexivity.
Defined.

Lemma sqd_energy_is_best_batch_energy_witness :
  ∃ best out,
    best_batch demo_final = Ok best
    ∧ @solve unit demo_setup best = Ok out
    ∧ sqd_energy demo_final
      = Ok (energy_sci out + @nuclear_repulsion_energy unit demo_setup)%Q.
Proof.
  apply (@sqd_energy_is_best_batch_energy nat demo_rng unit demo_setup
           (initial_store demo_raw demo_probs) 0 demo_final).
  - simpl. lia.
  - simpl. lia.
  - vm_compute. reflexivity.
Defined.

Lemma initial_parameters_are_small_witness :
  length (@k_rot_init nat demo_rng 2 0).1 = 2 ^ 2.
Proof.
  apply (@initial_parameters_are_small nat demo_rng 2 0).
  exact demo_rng_unit_draws.
Defined.

Lemma occupancy_estimate_stays_in_range_witness :
  ∃ avg bts,
    avg_occupancy demo_final = Some avg
    ∧ batches demo_final = Some bts
    ∧ Forall (λ x, (0 <= x)%Q ∧ (x <= 1)%Q) avg
    ∧ ∀ b out, b ∈ bts → @solve unit demo_setup b = Ok out →
        length (avg_occs out) = length avg.
Proof.
  apply (@occupancy_estimate_stays_in_range nat demo_rng unit demo_setup
           (match @rounds nat demo_rng unit demo_setup 1 demo_start with
            | Ok st => st
            | Raise _ => demo_start
            end) demo_final 1).
  - intros b out. unfold solve. simpl. unfold demo_solver.
    destruct b as [|r b]; [done|].
    destruct (bool_decide (r = row_A)); intros [= <-]; simpl;
      repeat constructor; done.
  - vm_compute. reflexivity.
Defined.
